(** * Gaussian elimination: sequential engine and fork/shared-memory engine

    A shallow embedding of [gaussian.hpp] (namespace [detail],
    [gaussian_sequential], [gaussian_parallel]), of [matrix.hpp]'s
    [CppMatrix] and [make_random_matrix], of the client's
    [make_predefined_matrix], choice of the matrix and request, and of the
    service routine with its comparison loop.

    Conventions.
    - [double] is IEEE 754 binary64: Rocq's primitive [float], each
      operation rounded once (no contraction into fused multiply-add).
    - [std::size_t] is 64 bits wide.  Row and column indices are [nat]:
      inside the engines every index expression stays below the size of the
      buffer it addresses.  The two computations on sizes that no buffer
      bounds, [rows + 1] in [validate_augmented] and the element and byte
      counts of the shared region, are written with their wrap-around
      ([to_size_t]).
    - [std::vector<double>] and the [mmap]ed region are [list double],
      addressed row-major by [r * width + c] as in the source.  A read
      outside the buffer is undefined behaviour in C++; here it yields
      [0.0] and a write outside is dropped.  The theorems that depend on
      the contents assume [well_formed]: the buffer has [rows * cols]
      entries (and, being in memory, fewer than [2^64] bytes).
    - C++ exceptions are the [Throw] case of [result].
    - [fd_write_full] and [fd_read_full] run against the answers the kernel
      gives to the successive calls of [write] and [read]. *)

From Stdlib Require Import ZArith Floats Lia.
From stdpp Require Import base tactics option list strings.

(** ** Scalars *)

Abbreviation double := float.

#[global] Instance double_inhabited : Inhabited double := populate 0%float.

(** [std::fabs] *)
Definition fabs (x : double) : double := PrimFloat.abs x.

(** [constexpr double kEpsilon = 1e-12;] (the nearest binary64 value) *)
Definition kEpsilon : double := 0x1.19799812dea11p-40%float.

(** The value of an expression evaluated in [std::size_t]. *)
Definition to_size_t (z : Z) : nat := Z.to_nat (z mod 2 ^ 64).

(** [sizeof(double)] *)
Definition sizeof_double : nat := 8.

(** ** Exceptions *)

Inductive exn :=
| invalid_argument (what : string)
| runtime_error (what : string).

Inductive result (A : Type) :=
| Return (a : A)
| Throw (e : exn).
Arguments Return {A} a.
Arguments Throw {A} e.

Definition rbind {A B} (r : result A) (k : A -> result B) : result B :=
  match r with
  | Return a => k a
  | Throw e => Throw e
  end.

(** [for (x : l) { s = f(s, x); }] where the body may throw *)
Fixpoint foldM {A S} (f : S -> A -> result S) (l : list A) (s : S) : result S :=
  match l with
  | [] => Return s
  | x :: l' => rbind (f s x) (foldM f l')
  end.

(** The failure classes [InvalidShape] and [SingularMatrix], read off the
    exception. *)
Definition singular_what : string := "Matrix is singular or ill-conditioned".

Definition is_InvalidShape (e : exn) : bool :=
  match e with invalid_argument _ => true | runtime_error _ => false end.

Definition is_SingularMatrix (e : exn) : bool :=
  match e with
  | runtime_error what => bool_decide (what = singular_what)
  | invalid_argument _ => false
  end.

(** ** matrix.hpp *)

Record CppMatrix := {
  rows : nat;
  cols : nat;
  data : list double
}.

(** The value-object invariant of a matrix: the buffer holds
    [rows * cols] entries; it lies in a 64-bit address space. *)
Definition well_formed (m : CppMatrix) : Prop :=
  length (data m) = rows m * cols m /\
  (Z.of_nat (length (data m)) * Z.of_nat sizeof_double < 2 ^ 64)%Z.

(** ** namespace detail *)

Module detail.

Definition validate_augmented (augmented : CppMatrix) : result unit :=
  if rows augmented =? 0 then
    Throw (invalid_argument "Matrix must have at least one row")
  else if negb (cols augmented =? to_size_t (Z.of_nat (rows augmented) + 1)) then
    Throw (invalid_argument
             "Augmented matrix must have exactly one more column than rows")
  else Return tt.

(** [enum class WorkerCommand : std::size_t { Work = 1, Exit = 2 }] *)
Definition Work : nat := 1.
Definition Exit : nat := 2.

Record WorkerTask := {
  command : nat;
  column : nat;
  start_row : nat;
  end_row : nat
}.

Record WorkerAck := { status : Z }.

(** The innermost statement of both engines,
    [row_ptr[k] -= factor * pivot_row[k]], that is
    [at(row, k) -= factor * at(col, k)]. *)
Definition axpy (width col row : nat) (factor : double)
    (d : list double) (k : nat) : list double :=
  let mine := d !!! (row * width + k) in
  let theirs := d !!! (col * width + k) in
  <[row * width + k := (mine - factor * theirs)%float]> d.

(** One turn of the row loop: the factor is read once, then the columns
    [col .. width-1] of the row are updated in increasing order. *)
Definition eliminate_row (width col : nat) (pivot : double)
    (d : list double) (row : nat) : list double :=
  let head := d !!! (row * width + col) in
  let factor := (head / pivot)%float in
  fold_left (axpy width col row factor) (seq col (width - col)) d.

(** [for (row = first; row < last; ++row)] over [eliminate_row] *)
Definition eliminate_rows (width col : nat) (pivot : double)
    (first last : nat) (d : list double) : list double :=
  fold_left (eliminate_row width col pivot) (seq first (last - first)) d.

(** The body of [worker_loop] for a task that is not [Exit]. *)
Definition worker_work (width : nat) (task : WorkerTask)
    (shared_data : list double) : list double :=
  if start_row task <? end_row task then
    let pivot := shared_data !!! (column task * width + column task) in
    eliminate_rows width (column task) pivot
      (start_row task) (end_row task) shared_data
  else shared_data.

(** Worker process states: [Ready] in the loop, [Terminated code] after
    [_exit(code)], [Reaped] once the parent's [waitpid] has collected it. *)
Inductive wstate := Ready | Terminated (code : Z) | Reaped.

Record iteration := {
  it_shared : list double;      (* the region after the iteration *)
  it_acks : list WorkerAck;     (* acknowledgements put on [write_fd] *)
  it_state : wstate
}.

(** One iteration of [for (;;)] in [worker_loop].  [incoming] is what
    [fd_read_full] delivers ([None]: the read failed), [ack_write_ok]
    whether [fd_write_full] on the acknowledgement succeeds. *)
Definition worker_iteration (width : nat) (incoming : option WorkerTask)
    (ack_write_ok : bool) (shared_data : list double) : iteration :=
  match incoming with
  | None =>
      {| it_shared := shared_data; it_acks := []; it_state := Terminated 1 |}
  | Some task =>
      if command task =? Exit then
        {| it_shared := shared_data;
           it_acks := if ack_write_ok then [ {| status := 0 |} ] else [];
           it_state := Terminated 0 |}
      else
        let shared' := worker_work width task shared_data in
        if ack_write_ok then
          {| it_shared := shared';
             it_acks := [ {| status := 0 |} ];
             it_state := Ready |}
        else
          {| it_shared := shared'; it_acks := []; it_state := Terminated 1 |}
  end.

(** What one call of [write] or [read] comes back with: a byte count, or
    [-1] with [errno] equal to [EINTR], or [-1] with another [errno]. *)
Inductive io_answer := Transferred (count : nat) | Interrupted | Failed.

(** The loop of [fd_write_full].  [answers] is what the successive calls
    of [write] come back with; a call takes at most the [bytes - written]
    bytes it is offered.  [pipe] collects what went through.  [None]: the
    loop is still running when [answers] is used up. *)
Fixpoint fd_write_loop (answers : list io_answer) (buffer : list Byte.byte)
    (bytes written : nat) (pipe : list Byte.byte)
    : option (bool * list Byte.byte) :=
  if written <? bytes then
    match answers with
    | [] => None
    | Transferred count :: later =>
        let ret := Nat.min count (bytes - written) in
        fd_write_loop later buffer bytes (written + ret)
          (pipe ++ take ret (drop written buffer))
    | Interrupted :: later => fd_write_loop later buffer bytes written pipe
    | Failed :: _ => Some (false, pipe)
    end
  else Some (true, pipe).

Definition fd_write_full (answers : list io_answer) (buffer : list Byte.byte)
    (bytes : nat) (pipe : list Byte.byte) : option (bool * list Byte.byte) :=
  fd_write_loop answers buffer bytes 0 pipe.

(** [memcpy] of [chunk] to [buffer + offset] *)
Definition store (buffer : list Byte.byte) (offset : nat)
    (chunk : list Byte.byte) : list Byte.byte :=
  take offset buffer ++ chunk ++ drop (offset + length chunk) buffer.

(** The loop of [fd_read_full].  [pipe] holds the bytes the other end
    writes before it closes; a call of [read] delivers at most the
    [bytes - read_total] bytes asked for and at most what is left, and
    [0] stands for end of file.  The outcome carries the buffer and what
    is left in the pipe. *)
Fixpoint fd_read_loop (answers : list io_answer) (pipe buffer : list Byte.byte)
    (bytes read_total : nat)
    : option (bool * list Byte.byte * list Byte.byte) :=
  if read_total <? bytes then
    match answers with
    | [] => None
    | Transferred count :: later =>
        let ret := Nat.min count (Nat.min (bytes - read_total) (length pipe)) in
        if ret =? 0 then Some (false, buffer, pipe)
        else
          fd_read_loop later (drop ret pipe)
            (store buffer read_total (take ret pipe)) bytes (read_total + ret)
    | Interrupted :: later => fd_read_loop later pipe buffer bytes read_total
    | Failed :: _ => Some (false, buffer, pipe)
    end
  else Some (true, buffer, pipe).

Definition fd_read_full (answers : list io_answer) (pipe buffer : list Byte.byte)
    (bytes : nat) : option (bool * list Byte.byte * list Byte.byte) :=
  fd_read_loop answers pipe buffer bytes 0.

(** [worker_loop]: the iterations in a row.  [inbox] lists the tasks that
    arrive on [read_fd], each with whether the write of its
    acknowledgement succeeds; after the last one the pipe is at end of
    file and the read fails.  The outcome carries the region, the
    acknowledgements written and the way the process ended. *)
Fixpoint worker_loop (width : nat) (inbox : list (WorkerTask * bool))
    (shared_data : list double) : iteration :=
  match inbox with
  | [] => worker_iteration width None true shared_data
  | (task, ack_write_ok) :: later =>
      let it := worker_iteration width (Some task) ack_write_ok shared_data in
      match it_state it with
      | Ready =>
          let rest := worker_loop width later (it_shared it) in
          {| it_shared := it_shared rest;
             it_acks := it_acks it ++ it_acks rest;
             it_state := it_state rest |}
      | _ => it
      end
  end.

End detail.

Import detail.

(** ** gaussian_sequential *)

(** The test [std::fabs(pivot) < kEpsilon] *)
Definition too_small (pivot : double) : bool := (fabs pivot <? kEpsilon)%float.

(** Forward elimination, one pivot column. *)
Definition forward_column (width n : nat) (d : list double) (col : nat)
    : result (list double) :=
  let pivot := d !!! (col * width + col) in
  if too_small pivot then Throw (runtime_error singular_what)
  else Return (eliminate_rows width col pivot (col + 1) n d).

Definition forward_elimination (width n : nat) (d : list double)
    : result (list double) :=
  foldM (forward_column width n) (seq 0 n) d.

(** Back substitution, one unknown: the loop body for index [i]. *)
Definition back_row (width n : nat) (d : list double)
    (solution : list double) (i : nat) : result (list double) :=
  let rhs :=
    fold_left (fun rhs j =>
                 let a := d !!! (i * width + j) in
                 let x := solution !!! j in
                 (rhs - a * x)%float)
              (seq (i + 1) (n - (i + 1)))
              (d !!! (i * width + (width - 1))) in
  let pivot := d !!! (i * width + i) in
  if too_small pivot then Throw (runtime_error singular_what)
  else Return (<[i := (rhs / pivot)%float]> solution).

(** [std::vector<double> solution(n, 0.0); for (i = n; i-- > 0;) ...] *)
Definition back_substitution (width n : nat) (d : list double)
    : result (list double) :=
  foldM (back_row width n d) (rev (seq 0 n)) (replicate n 0%float).

Definition gaussian_sequential (augmented : CppMatrix) : result (list double) :=
  rbind (validate_augmented augmented) (fun _ =>
  let n := rows augmented in
  let width := cols augmented in
  rbind (forward_elimination width n (data augmented)) (fun d =>
  back_substitution width n d)).

(** ** Client and server helpers *)

(** [make_predefined_matrix]: the matrix and the expected solution. *)
Definition make_predefined_matrix : CppMatrix * list double :=
  ({| rows := 3; cols := 4;
      data := [ 2;  1; -1;   8;
               -3; -1;  2; -11;
               -2;  1;  2;  -3 ]%float |},
   [2; 3; -1]%float).

(** [std::max] on doubles: [(a < b) ? b : a] *)
Definition fmax (a b : double) : double := if (a <? b)%float then b else a.

(** The client's maximal absolute error against the expected solution. *)
Definition max_err (solved expected : list double) : double :=
  fold_left (fun acc '(s, e) => fmax acc (fabs (s - e)%float))
            (zip solved expected) 0%float.

(** [constexpr double kTolerance = 1e-6;] *)
Definition kTolerance : double := 0x1.0c6f7a0b5ed8dp-20%float.

(** The server's comparison of the two solutions: sizes equal and no
    element with [delta > kTolerance]. *)
Definition solutions_match (parallel_solution sequential_solution : list double)
    : bool :=
  (length parallel_solution =? length sequential_solution) &&
  forallb (fun '(p, s) => negb (kTolerance <? fabs (p - s))%float)
          (zip parallel_solution sequential_solution).

(** ** The operating system as seen by one call of gaussian_parallel *)

(** System calls that succeeded, in the order they were made. *)
Inductive event :=
| Mmap (bytes : nat)
| Munmap (bytes : nat)
| Copy (count : nat)
| Fork (worker : nat)
| Send (worker : nat) (task : WorkerTask)
| Recv (worker : nat) (ack : WorkerAck)
| Waitpid (worker : nat)
| Close (worker : nat).

(** The footprint of a call: the [MAP_SHARED] region of the calling
    process ([None]: not mapped), the child processes it has forked
    (position = index in [workers]), the number of fallible system calls
    made so far, and the trace. *)
Record World := {
  shm : option (list double);
  procs : list wstate;
  clock : nat;
  trace : list event
}.

Definition fresh : World :=
  {| shm := None; procs := []; clock := 0; trace := [] |}.

(** What the call cannot control. *)
Record Env := {
  cpu_available : Z;            (* sysconf(_SC_NPROCESSORS_ONLN) *)
  fails : nat -> bool;          (* does the k-th fallible system call fail? *)
  schedule : nat -> list nat;   (* per pivot column: which worker the kernel
                                   lets take the next step, and the next *)
  strerror : string             (* std::strerror(errno) *)
}.

Definition fault_free (env : Env) : Prop := forall k, fails env k = false.

(** State-and-exception monad of the orchestrator. *)
Definition M (A : Type) : Type := World -> result A * World.

Definition ret {A} (a : A) : M A := fun w => (Return a, w).
Definition throw {A} (e : exn) : M A := fun w => (Throw e, w).
Definition lift {A} (r : result A) : M A := fun w => (r, w).
Definition bind {A B} (m : M A) (k : A -> M B) : M B :=
  fun w =>
    match m w with
    | (Return a, w') => k a w'
    | (Throw e, w') => (Throw e, w')
    end.

Notation "'let*' x ':=' m 'in' k" := (bind m (fun x => k))
  (at level 10, x name, m at level 100, k at level 200, only parsing).

Fixpoint for_each {A} (l : list A) (body : A -> M unit) : M unit :=
  match l with
  | [] => ret tt
  | x :: l' => let* _ := body x in for_each l' body
  end.

Definition gets {A} (f : World -> A) : M A := fun w => (Return (f w), w).
Definition modify (f : World -> World) : M unit := fun w => (Return tt, f w).

Definition set_shm (s : option (list double)) (w : World) : World :=
  {| shm := s; procs := procs w; clock := clock w; trace := trace w |}.
Definition set_procs (ps : list wstate) (w : World) : World :=
  {| shm := shm w; procs := ps; clock := clock w; trace := trace w |}.
Definition tick (w : World) : World :=
  {| shm := shm w; procs := procs w; clock := S (clock w); trace := trace w |}.
Definition log (e : event) (w : World) : World :=
  {| shm := shm w; procs := procs w; clock := clock w; trace := trace w ++ [e] |}.

(** A fallible system call: [true] when it succeeds.  [fd_write_full] and
    [fd_read_full] count as one call each: they transfer the whole message
    or fail. *)
Definition syscall (env : Env) : M bool :=
  fun w => (Return (negb (fails env (clock w))), tick w).

Definition emit (e : event) : M unit := modify (log e).

(** The shared region as the caller reads it. *)
Definition read_shared : M (list double) := gets (fun w => default [] (shm w)).

(** [detail::errno_message] *)
Definition errno_message (env : Env) (prefix : string) : string :=
  String.append prefix (String.append ": " (strerror env)).

(** ** Workers running side by side *)

(** Where a worker stands inside the work branch of [worker_loop]; the
    locals it holds are part of the position. *)
Inductive pc :=
| NotStarted
    (* task read; next: the test [start_row < end_row] and the read of
       the pivot *)
| AtRow (pivot : double) (row : nat)
    (* next: the test [row < end_row] and the read of the factor *)
| AtCell (pivot : double) (row : nat) (factor : double) (k : nat)
    (* next: the test [k < width] and [row_ptr[k] -= factor * pivot_row[k]] *)
| Acked.
    (* acknowledgement written *)

Record thread := { th_task : WorkerTask; th_pc : pc }.

(** One step of one worker on the shared region: at most one read of the
    region into a local, or the update of one cell (a cell no other worker
    of the round reads or writes). *)
Definition thread_step (width : nat) (th : thread) (d : list double)
    : thread * list double :=
  let task := th_task th in
  let at_ (p : pc) := {| th_task := task; th_pc := p |} in
  match th_pc th with
  | NotStarted =>
      if start_row task <? end_row task then
        let pivot := d !!! (column task * width + column task) in
        (at_ (AtRow pivot (start_row task)), d)
      else (at_ Acked, d)
  | AtRow pivot row =>
      if row <? end_row task then
        let head := d !!! (row * width + column task) in
        (at_ (AtCell pivot row (head / pivot)%float (column task)), d)
      else (at_ Acked, d)
  | AtCell pivot row factor k =>
      if k <? width then
        (at_ (AtCell pivot row factor (S k)),
         axpy width (column task) row factor d k)
      else (at_ (AtRow pivot (S row)), d)
  | Acked => (th, d)
  end.

(** A worker left alone until it acknowledges. *)
Definition thread_finish (width : nat) (d : list double) (th : thread)
    : list double :=
  let task := th_task th in
  match th_pc th with
  | NotStarted => worker_work width task d
  | AtRow pivot row =>
      eliminate_rows width (column task) pivot row (end_row task) d
  | AtCell pivot row factor k =>
      eliminate_rows width (column task) pivot (S row) (end_row task)
        (fold_left (axpy width (column task) row factor) (seq k (width - k)) d)
  | Acked => d
  end.

(** The kernel lets the workers take steps in the order [sched]. *)
Fixpoint run_schedule (width : nat) (sched : list nat) (ths : list thread)
    (d : list double) : list thread * list double :=
  match sched with
  | [] => (ths, d)
  | i :: sched' =>
      match ths !! i with
      | Some th =>
          let '(th', d') := thread_step width th d in
          run_schedule width sched' (<[i := th']> ths) d'
      | None => run_schedule width sched' ths d
      end
  end.

(** The join barrier: the orchestrator blocks in [wait_ack] until every
    worker that got a task has acknowledged, so whatever the schedule left
    undone is completed before the round ends. *)
Definition barrier (width : nat) (sched : list nat) (tasks : list WorkerTask)
    (d : list double) : list double :=
  let started := map (fun t => {| th_task := t; th_pc := NotStarted |}) tasks in
  let '(ths, d') := run_schedule width sched started d in
  fold_left (thread_finish width) ths d'.

(** ** gaussian_parallel *)

(** The worker budget. *)
Definition process_budget (env : Env) (max_processes n : nat) : nat :=
  let cpu := cpu_available env in
  let budget :=
    if 0 <? max_processes then max_processes
    else Z.to_nat (if (0 <? cpu)%Z then cpu else 1%Z) in
  Nat.max 1 (Nat.min budget (n - 1)).

(** [mmap(nullptr, total_bytes, ..., MAP_SHARED | MAP_ANONYMOUS, -1, 0)]:
    a zero-filled region, used as an array of doubles; [false] stands for
    [MAP_FAILED]. *)
Definition mmap (env : Env) (total_bytes : nat) : M bool :=
  let* ok := syscall env in
  if ok then
    let* _ := modify (fun w =>
           log (Mmap total_bytes)
               (set_shm (Some (replicate (total_bytes / sizeof_double) 0%float))
                        w)) in
    ret true
  else ret false.

(** [~SharedMatrixGuard]: runs when the scope is left, by [return] or by
    an exception.  The guard is built from the pointer [mmap] returned,
    after the [MAP_FAILED] test, so its own test
    [ptr && ptr != MAP_FAILED] holds. *)
Definition munmap (bytes : nat) (w : World) : World :=
  log (Munmap bytes) (set_shm None w).

Definition SharedMatrixGuard {A} (bytes : nat) (scope : M A) : M A :=
  fun w => let '(r, w') := scope w in (r, munmap bytes w').

(** [std::copy(augmented.data.begin(), augmented.data.end(), shared_data)] *)
Definition std_copy (src : list double) : M unit :=
  modify (fun w =>
    log (Copy (length src))
        (set_shm (option_map (fun dst => take (length dst) src ++
                                          drop (length src) dst) (shm w)) w)).

Definition spawn_worker (env : Env) : M unit :=
  let* to_child := syscall env in
  if negb to_child then throw (runtime_error (errno_message env "pipe failed"))
  else
  let* to_parent := syscall env in
  if negb to_parent then throw (runtime_error (errno_message env "pipe failed"))
  else
  let* pid := syscall env in
  if negb pid then throw (runtime_error (errno_message env "fork failed"))
  else
  modify (fun w => log (Fork (length (procs w)))
                       (set_procs (procs w ++ [Ready]) w)).

Definition send_task (env : Env) (worker_index : nat) (cmd : nat)
    (col start end_ : nat) : M unit :=
  let task := {| command := cmd; column := col;
                 start_row := start; end_row := end_ |} in
  let* ok := syscall env in
  if negb ok then
    throw (runtime_error (errno_message env "write to worker failed"))
  else emit (Send worker_index task).

(** The acknowledgement a worker writes: [worker_loop] has [WorkerAck ack{0}]
    on both of its paths. *)
Definition ack_written : WorkerAck := {| status := 0 |}.

Definition wait_ack (env : Env) (worker_index : nat) : M unit :=
  let* ok := syscall env in
  if negb ok then
    throw (runtime_error (errno_message env "read from worker failed"))
  else
    let ack := ack_written in
    if negb (status ack =? 0)%Z then
      throw (runtime_error "worker reported failure")
    else emit (Recv worker_index ack).

(** The row ranges of one round: the assignment loop with its [break]. *)
Fixpoint assign_loop (n col chunk : nat) (todo assigned : nat)
    : list WorkerTask :=
  match todo with
  | 0 => []
  | S todo' =>
      let start := col + 1 + assigned * chunk in
      if n <=? start then []
      else
        let end_ := Nat.min n (start + chunk) in
        {| command := Work; column := col;
           start_row := start; end_row := end_ |}
          :: assign_loop n col chunk todo' (S assigned)
  end.

(** The tasks of the round for pivot column [col]; the k-th one goes to
    worker k. *)
Definition plan_round (n budget col : nat) : list WorkerTask :=
  let remaining_rows := n - col - 1 in
  let active_workers := Nat.min budget remaining_rows in
  let chunk := (remaining_rows + active_workers - 1) / active_workers in
  assign_loop n col chunk active_workers 0.

Definition send_planned (env : Env) (it : nat * WorkerTask) : M unit :=
  send_task env it.1 (command it.2) (column it.2) (start_row it.2) (end_row it.2).

(** The workers that were sent a task run until each has acknowledged.
    A worker may start while later tasks are still being written; writing a
    task touches no cell of the region, so the steps are counted from the
    end of the dispatch loop.  When a write fails the call throws and what
    the workers already started is never read. *)
Definition run_workers (env : Env) (width col : nat) (tasks : list WorkerTask)
    : M unit :=
  modify (fun w =>
    set_shm (option_map (barrier width (schedule env col) tasks) (shm w)) w).

(** One turn of [for (col = 0; col < n; ++col)]. *)
Definition column_round (env : Env) (width n budget col : nat) : M unit :=
  let* d := read_shared in
  let pivot := d !!! (col * width + col) in
  if too_small pivot then throw (runtime_error singular_what)
  else
    let remaining_rows := n - col - 1 in
    if remaining_rows =? 0 then ret tt
    else
      let tasks := plan_round n budget col in
      let* _ := for_each (zip (seq 0 (length tasks)) tasks) (send_planned env) in
      let* _ := run_workers env width col tasks in
      for_each (seq 0 (length tasks)) (wait_ack env).

(** A worker reads the task it was sent and reacts as [worker_loop] says. *)
Definition worker_reacts (width idx : nat) (task : WorkerTask) : M unit :=
  modify (fun w =>
    match procs w !! idx with
    | Some Ready =>
        let it := worker_iteration width (Some task) true (default [] (shm w)) in
        set_procs (<[idx := it_state it]> (procs w)) w
    | _ => w
    end).

Definition send_exit (env : Env) (width idx : nat) : M unit :=
  let* _ := send_task env idx Exit 0 0 0 in
  worker_reacts width idx
    {| command := Exit; column := 0; start_row := 0; end_row := 0 |}.

(** One turn of the [waitpid] loop. *)
Definition reap (env : Env) (idx : nat) : M unit :=
  let* ok := syscall env in
  if negb ok then throw (runtime_error (errno_message env "waitpid failed"))
  else
    let* st := gets (fun w => procs w !! idx) in
    match st with
    | Some (Terminated code) =>
        (* [waitpid] returns the exit status of the child *)
        let* _ := modify (fun w =>
               log (Waitpid idx) (set_procs (<[idx := Reaped]> (procs w)) w)) in
        if negb (code =? 0)%Z then
          throw (runtime_error "worker exited abnormally")
        else emit (Close idx)
    | _ =>
        (* not met: the loop is entered after every worker was sent [Exit] *)
        throw (runtime_error "worker exited abnormally")
    end.

Definition gaussian_parallel_body (env : Env) (augmented : CppMatrix)
    (max_processes : nat) : M (list double) :=
  let* _ := lift (validate_augmented augmented) in
  let n := rows augmented in
  if n <? 2 then lift (gaussian_sequential augmented)
  else
    let width := cols augmented in
    let total_elements := to_size_t (Z.of_nat n * Z.of_nat width) in
    let total_bytes :=
      to_size_t (Z.of_nat total_elements * Z.of_nat sizeof_double) in
    let* mapped := mmap env total_bytes in
    if negb mapped then
      throw (runtime_error (String.append "mmap failed: " (strerror env)))
    else
      SharedMatrixGuard total_bytes (
        let* _ := std_copy (data augmented) in
        let budget := process_budget env max_processes n in
        let* _ := for_each (seq 0 budget) (fun _ => spawn_worker env) in
        let* _ := for_each (seq 0 n) (column_round env width n budget) in
        let* workers_size := gets (fun w => length (procs w)) in
        let* _ := for_each (seq 0 workers_size) (send_exit env width) in
        let* _ := for_each (seq 0 workers_size) (wait_ack env) in
        let* _ := for_each (seq 0 workers_size) (reap env) in
        let* d := read_shared in
        lift (back_substitution width n d)).

(** The call, started with nothing mapped and no child. *)
Definition gaussian_parallel (env : Env) (augmented : CppMatrix)
    (max_processes : nat) : result (list double) * World :=
  gaussian_parallel_body env augmented max_processes fresh.

(** ** Vocabulary of the properties *)

(** [total_bytes] of the call on [m]. *)
Definition region_bytes (m : CppMatrix) : nat :=
  to_size_t (Z.of_nat (to_size_t (Z.of_nat (rows m) * Z.of_nat (cols m))) *
             Z.of_nat sizeof_double).

(** A task of the round for pivot column [c] of an [n]-row system. *)
Definition task_in (n c : nat) (t : WorkerTask) : Prop :=
  column t = c /\ c < start_row t /\ end_row t <= n.

Definition thread_ok (n c : nat) (th : thread) : Prop :=
  task_in n c (th_task th) /\
  match th_pc th with
  | AtRow _ row => start_row (th_task th) <= row
  | AtCell _ row _ _ =>
      start_row (th_task th) <= row /\ row < end_row (th_task th)
  | _ => True
  end.

(** [f] works on the cells [lo .. hi-1] of the region and reads, beside
    them, only the cells [plo .. phi-1]: it keeps the length, leaves every
    other cell alone, and what it puts in its cells depends on those two
    ranges only. *)
Definition local (plo phi lo hi : nat) (f : list double -> list double) : Prop :=
  (forall d, length (f d) = length d) /\
  (forall d i, ~ (lo <= i < hi) -> f d !!! i = d !!! i) /\
  (forall d d',
     length d = length d' ->
     (forall i, lo <= i < hi \/ plo <= i < phi -> d !!! i = d' !!! i) ->
     forall i, lo <= i < hi -> f d !!! i = f d' !!! i).

(** The ranges increase along the list of workers. *)
Definition ordered (ts : list WorkerTask) : Prop :=
  forall i j ti tj, i < j -> ts !! i = Some ti -> ts !! j = Some tj ->
    end_row ti <= start_row tj.

(** [wp m Q w]: running [m] from [w] ends in an outcome and a world that
    satisfy [Q]. *)
Definition wp {A} (m : M A) (Q : result A -> World -> Prop) (w : World) : Prop :=
  Q (m w).1 (m w).2.

(** Events of the teardown: an [Exit] task, a [waitpid], a [close]. *)
Definition teardown_event (e : event) : bool :=
  match e with
  | Send _ t => command t =? Exit
  | Waitpid _ | Close _ => true
  | _ => false
  end.

Definition no_teardown (w : World) : Prop :=
  Forall (fun e => teardown_event e = false) (trace w).

(** Every child forked by the call has been collected by [waitpid]. *)
Definition all_reaped (w : World) : Prop :=
  Forall (fun st => st = Reaped) (procs w).

(** Some [Exit] task was written to worker [idx]. *)
Definition signalled (w : World) (idx : nat) : Prop :=
  exists t, Send idx t ∈ trace w /\ command t = Exit.

(** The pivots forward elimination reads when none of them is rejected,
    and the matrix it leaves. *)
Fixpoint forward_pivots (width n : nat) (columns : list nat) (d : list double)
    : list double :=
  match columns with
  | [] => []
  | col :: rest =>
      let pivot := d !!! (col * width + col) in
      pivot :: forward_pivots width n rest
                 (eliminate_rows width col pivot (col + 1) n d)
  end.

Fixpoint eliminated (width n : nat) (columns : list nat) (d : list double)
    : list double :=
  match columns with
  | [] => d
  | col :: rest =>
      let pivot := d !!! (col * width + col) in
      eliminated width n rest (eliminate_rows width col pivot (col + 1) n d)
  end.

(** The pivots back substitution reads. *)
Definition back_pivots (width : nat) (rows_desc : list nat) (d : list double)
    : list double :=
  map (fun i => d !!! (i * width + i)) rows_desc.

Definition pivots_encountered (m : CppMatrix) : list double :=
  let n := rows m in
  let width := cols m in
  forward_pivots width n (seq 0 n) (data m) ++
  back_pivots width (rev (seq 0 n)) (eliminated width n (seq 0 n) (data m)).

(** Every pivot has magnitude at least [kEpsilon]. *)
Definition well_conditioned (m : CppMatrix) : Prop :=
  Forall (fun pivot => (kEpsilon <=? fabs pivot)%float = true)
         (pivots_encountered m).

(** Element-wise distance at most [kTolerance]. *)
Definition within_tolerance (xs expected : list double) : bool :=
  (length xs =? length expected) &&
  forallb (fun '(x, e) => (fabs (x - e) <=? kTolerance)%float) (zip xs expected).

(** ** Concrete inputs *)

(** Scenario B: the single equation [5 x = 10]. *)
Definition scenario_B : CppMatrix :=
  {| rows := 1; cols := 2; data := [5; 10]%float |}.

(** A 2 x 3 system whose first pivot is zero. *)
Definition zero_pivot : CppMatrix :=
  {| rows := 2; cols := 3; data := [0; 1; 1;
                                     1; 1; 2]%float |}.

(** Scenario C: a 2 x 2 matrix, not an augmented system. *)
Definition scenario_C : CppMatrix :=
  {| rows := 2; cols := 2; data := [1; 2; 3; 4]%float |}.

(** An environment with four processors in which no call fails and the
    kernel alternates between the first two workers. *)
Definition calm : Env :=
  {| cpu_available := 4;
     fails := fun _ => false;
     schedule := fun _ => [1; 0; 0; 1; 1; 0];
     strerror := "Success" |}.

(** An environment in which the tenth system call, the first read of an
    acknowledgement on three rows, fails. *)
Definition broken_pipe : Env :=
  {| cpu_available := 4;
     fails := fun k => k =? 9;
     schedule := fun _ => [];
     strerror := "Broken pipe" |}.

(** ** matrix.hpp: make_random_matrix *)


(** ** The client: choice of the matrix and the request *)


(** [static_cast<u_int>] of a [std::size_t] *)
Definition to_u_int (n : nat) : nat := Z.to_nat (Z.of_nat n mod 2 ^ 32).

(** The structures of the RPC interface, with the fields the code uses. *)
Module Rpc.

Record Matrix := {
  rows : nat;
  cols : nat;
  data_len : nat;
  data_val : list double          (* the memory [data_val] points to *)
}.

Record Solution := {
  values_len : nat;
  values_val : list double
}.

End Rpc.

(** The client's conversion [CppMatrix -> Matrix]. *)
Definition to_rpc_matrix (cpp_matrix : CppMatrix) : Rpc.Matrix :=
  {| Rpc.rows := to_u_int (rows cpp_matrix);
     Rpc.cols := to_u_int (cols cpp_matrix);
     Rpc.data_len := to_u_int (length (data cpp_matrix));
     Rpc.data_val := data cpp_matrix |}.

(** ** The server *)

(** The service routine's conversion [Matrix -> CppMatrix]:
    [data.assign(data_val, data_val + data_len)]. *)
Definition from_rpc_matrix (argp : Rpc.Matrix) : CppMatrix :=
  {| rows := Rpc.rows argp;
     cols := Rpc.cols argp;
     data := take (Rpc.data_len argp) (Rpc.data_val argp) |}.

(** [solve_gauss_1_svc] without its printing: the parallel engine with
    its default [max_processes = 0], no handler around it, and the
    conversion of the solution. *)
Definition solve_gauss_1_svc (env : Env) (argp : Rpc.Matrix)
    : result Rpc.Solution * World :=
  let cpp_matrix := from_rpc_matrix argp in
  let '(outcome, w) := gaussian_parallel env cpp_matrix 0 in
  (rbind outcome (fun parallel_solution =>
     Return {| Rpc.values_len := to_u_int (length parallel_solution);
               Rpc.values_val := parallel_solution |}),
   w).

(** The comparison loop of the background thread, with its [break]:
    the flag and [max_delta] as they are printed. *)
Fixpoint compare_loop (pairs : list (double * double)) (max_delta : double)
    : bool * double :=
  match pairs with
  | [] => (true, max_delta)
  | (p, s) :: later =>
      let delta := fabs (p - s)%float in
      let max_delta := fmax max_delta delta in
      if (kTolerance <? delta)%float then (false, max_delta)
      else compare_loop later max_delta
  end.

Definition compare_solutions (parallel_solution sequential_solution : list double)
    : bool * double :=
  let solutions_match := length parallel_solution =? length sequential_solution in
  let max_delta := 0%float in
  if solutions_match then
    compare_loop (zip parallel_solution sequential_solution) max_delta
  else (solutions_match, max_delta).

(** ** Further vocabulary *)

(** The same environment with every system call succeeding. *)
Definition calmed (env : Env) : Env :=
  {| cpu_available := cpu_available env;
     fails := fun _ => false;
     schedule := schedule env;
     strerror := strerror env |}.

(** [m2] returns whatever [m1] returns, from the same world to the same
    world. *)
Definition returns_as {A} (m1 m2 : M A) : Prop :=
  forall w a w', m1 w = (Return a, w') -> m2 w = (Return a, w').

(** [m] forks no child and loses none. *)
Definition keeps_pool {A} (m : M A) : Prop :=
  forall w, length (procs (m w).2) = length (procs w).

(** The exception of [spawn_worker] when the call number [r] of its three
    ([pipe], [pipe], [fork]) fails. *)
Definition spawn_failure (env : Env) (r : nat) : exn :=
  runtime_error
    (errno_message env (if r <? 2 then "pipe failed" else "fork failed")).

(** The bytes the answers offer to transfer. *)
Definition offered (answers : list io_answer) : nat :=
  foldr (fun a total => match a with
                        | Transferred count => count + total
                        | _ => total
                        end) 0 answers.

Definition is_Failed (a : io_answer) : bool :=
  match a with Failed => true | _ => false end.

(** An answer that moves at least one byte, or [EINTR]. *)
Definition makes_progress (a : io_answer) : bool :=
  match a with
  | Transferred count => 0 <? count
  | Interrupted => true
  | Failed => false
  end.

(** * Properties *)

(** ** Facts about binary64 used below *)

(** [x - x] is [+0] or NaN, never above the tolerance. *)
Lemma sub_self_within (x : double) :
  (kTolerance <? fabs (x - x))%float = false.
Proof.
  unfold fabs. rewrite ltb_spec, abs_spec, sub_spec.
  destruct (Prim2SF x) as [s | s | | s m e]; try reflexivity.
  - destruct s; reflexivity.
  - destruct s; reflexivity.
  - unfold SF64sub, SFsub. rewrite Z.sub_diag. reflexivity.
Qed.

Lemma SFcompare_Lt_flip (a b : spec_float) :
  SFcompare a b = Some Lt -> SFcompare b a = Some Gt.
Proof.
  destruct a as [sa | sa | | sa ma ea], b as [sb | sb | | sb mb eb];
    simpl; try destruct sa; try destruct sb; simpl; try congruence.
  all: rewrite (Z.compare_antisym ea eb);
    pose proof (Pos.compare_cont_antisym ma mb Eq) as HP; simpl in HP;
    rewrite <- HP;
    destruct (ea ?= eb)%Z; simpl; try congruence;
    destruct (Pos.compare_cont Eq ma mb); simpl; congruence.
Qed.

(** A pivot of magnitude at least [kEpsilon] passes the source's test. *)
Lemma big_enough_not_too_small (pivot : double) :
  (kEpsilon <=? fabs pivot)%float = true -> too_small pivot = false.
Proof.
  unfold too_small. rewrite leb_spec, ltb_spec. unfold SFleb, SFltb.
  destruct (SFcompare (Prim2SF (fabs pivot)) (Prim2SF kEpsilon)) as [[]|] eqn:E;
    try reflexivity.
  apply SFcompare_Lt_flip in E. rewrite E. discriminate.
Qed.

(** ** Footprints *)

Lemma total_lookup_ext (l1 l2 : list double) :
  length l1 = length l2 ->
  (forall i, l1 !!! i = l2 !!! i) ->
  l1 = l2.
Proof.
  intros Hlen Hext.
  apply (list_eq_same_length l1 l2 (length l1)); [done | done |].
  intros i x y Hi Hx Hy.
  apply list_lookup_total_correct in Hx, Hy.
  rewrite <- Hx, <- Hy. by apply Hext.
Qed.

Section Footprint.

(** The cells that are only read: the pivot row. *)
Variables plo phi : nat.

Lemma local_id lo hi : local plo phi lo hi (fun d => d).
Proof. repeat split; intros; auto. Qed.

Lemma local_weaken lo hi lo' hi' f :
  lo' <= lo -> hi <= hi' ->
  local plo phi lo hi f -> local plo phi lo' hi' f.
Proof.
  intros Hlo Hhi (Hlen & Hframe & Hdep). split; [done |]. split.
  - intros d i Hout. apply Hframe. lia.
  - intros d d' Hl Hagree i Hi.
    destruct (decide (lo <= i < hi)) as [Hin | Hout].
    + apply Hdep; [done | | done]. intros j Hj. apply Hagree. lia.
    + rewrite !Hframe by done. apply Hagree. by left.
Qed.

Lemma local_compose lo hi f g :
  (hi <= plo \/ phi <= lo) ->
  local plo phi lo hi f -> local plo phi lo hi g ->
  local plo phi lo hi (fun d => g (f d)).
Proof.
  intros Hsep (Hlenf & Hframef & Hdepf) (Hleng & Hframeg & Hdepg).
  split; [| split].
  - intros d. by rewrite Hleng, Hlenf.
  - intros d i Hout. by rewrite Hframeg, Hframef.
  - intros d d' Hl Hagree i Hi. apply Hdepg; [by rewrite !Hlenf | | done].
    intros j [Hj | Hj].
    + apply Hdepf; done.
    + rewrite !Hframef by lia. apply Hagree. by right.
Qed.

Lemma local_fold {A} lo hi (step : list double -> A -> list double) xs :
  (hi <= plo \/ phi <= lo) ->
  Forall (fun x => local plo phi lo hi (fun d => step d x)) xs ->
  local plo phi lo hi (fun d => fold_left step xs d).
Proof.
  intros Hsep. induction xs as [| x xs IH]; intros Hxs; simpl.
  - apply local_id.
  - apply Forall_cons in Hxs as [Hx Hxs].
    apply (local_compose lo hi (fun d => step d x)
             (fun d => fold_left step xs d)); auto.
Qed.

(** Two pieces of work on disjoint cells, neither writing what the other
    reads, can be done in either order. *)
Lemma local_comm lo1 hi1 lo2 hi2 f1 f2 d :
  (hi1 <= lo2 \/ hi2 <= lo1) ->
  (hi1 <= plo \/ phi <= lo1) -> (hi2 <= plo \/ phi <= lo2) ->
  local plo phi lo1 hi1 f1 -> local plo phi lo2 hi2 f2 ->
  f1 (f2 d) = f2 (f1 d).
Proof.
  intros Hdisj Hsep1 Hsep2 (Hlen1 & Hframe1 & Hdep1) (Hlen2 & Hframe2 & Hdep2).
  apply total_lookup_ext; [by rewrite Hlen1, !Hlen2, Hlen1 |].
  intros i.
  destruct (decide (lo1 <= i < hi1)) as [Hin1 | Hout1];
    [| destruct (decide (lo2 <= i < hi2)) as [Hin2 | Hout2]].
  - rewrite (Hframe2 (f1 d)) by lia.
    apply Hdep1; [by rewrite Hlen2 | | done].
    intros j Hj. apply Hframe2. lia.
  - rewrite (Hframe1 (f2 d)) by lia.
    symmetry. apply Hdep2; [by rewrite Hlen1 | | done].
    intros j Hj. apply Hframe1. lia.
  - by rewrite Hframe1, Hframe2, Hframe2, Hframe1.
Qed.

End Footprint.

(** ** The footprint of the row update *)

Lemma columns_in_row width k :
  Forall (fun k' => k' < width) (seq k (width - k)).
Proof. apply Forall_forall. intros k' Hk'. apply elem_of_seq in Hk'. lia. Qed.

Section Elimination.

Variables width col : nat.

(** The pivot row, as a range of cells. *)
Let plo := col * width.
Let phi := col * width + width.

Lemma axpy_length row factor d k :
  length (axpy width col row factor d k) = length d.
Proof. unfold axpy. apply length_insert. Qed.

(** One statement [row_ptr[k] -= factor * pivot_row[k]] works on the
    cells of its row. *)
Lemma axpy_local row factor k :
  row <> col -> k < width ->
  local plo phi (row * width) (row * width + width)
        (fun d => axpy width col row factor d k).
Proof.
  intros Hrow Hk. split; [| split].
  - intros d. apply axpy_length.
  - intros d i Hout. unfold axpy.
    rewrite list_lookup_total_insert_ne by lia. done.
  - intros d d' Hlen Hagree i Hi. unfold axpy.
    destruct (decide (i = row * width + k)) as [-> | Hne].
    + destruct (decide (row * width + k < length d)) as [Hin | Hover].
      * rewrite !list_lookup_total_insert_eq by lia.
        rewrite (Hagree (row * width + k)) by (left; lia).
        rewrite (Hagree (col * width + k)) by (right; unfold plo, phi; lia).
        done.
      * rewrite !list_insert_ge by lia. apply Hagree. left. lia.
    + rewrite !list_lookup_total_insert_ne by done. apply Hagree. by left.
Qed.

Lemma row_apart row : row <> col ->
  row * width + width <= plo \/ phi <= row * width.
Proof. intros Hrow. unfold plo, phi. nia. Qed.

Lemma axpy_fold_local row factor ks :
  row <> col -> Forall (fun k => k < width) ks ->
  local plo phi (row * width) (row * width + width)
        (fun d => fold_left (axpy width col row factor) ks d).
Proof.
  intros Hrow Hks. apply local_fold; [by apply row_apart |].
  eapply Forall_impl; [exact Hks |]. intros k Hk. by apply axpy_local.
Qed.

(** The update of a whole row. *)
Lemma eliminate_row_local pivot row :
  col < width -> row <> col ->
  local plo phi (row * width) (row * width + width)
        (fun d => eliminate_row width col pivot d row).
Proof.
  intros Hcol Hrow. unfold eliminate_row. split; [| split].
  - intros d. apply (axpy_fold_local row _ _ Hrow (columns_in_row width col)).
  - intros d i Hout.
    by apply (axpy_fold_local row _ _ Hrow (columns_in_row width col)).
  - intros d d' Hlen Hagree i Hi.
    rewrite (Hagree (row * width + col)) by (left; lia).
    by apply (axpy_fold_local row _ _ Hrow (columns_in_row width col)).
Qed.

Lemma rows_apart first last :
  col < first \/ last <= col ->
  last * width <= plo \/ phi <= first * width.
Proof. intros H. unfold plo, phi. nia. Qed.

(** The update of the rows [first .. last-1]. *)
Lemma eliminate_rows_local pivot first last :
  col < width -> col < first \/ last <= col ->
  local plo phi (first * width) (last * width)
        (fun d => eliminate_rows width col pivot first last d).
Proof.
  intros Hcol Hrows. unfold eliminate_rows.
  apply local_fold; [by apply rows_apart |].
  apply Forall_forall. intros row Hrow. apply elem_of_seq in Hrow.
  apply (local_weaken plo phi (row * width) (row * width + width));
    [nia | nia |].
  apply eliminate_row_local; [done | lia].
Qed.

(** Rows other than the updated ones keep their contents. *)
Lemma eliminate_rows_other_row pivot first last d r k :
  col < width ->
  col < first \/ last <= col -> r < first \/ last <= r -> k < width ->
  eliminate_rows width col pivot first last d !!! (r * width + k) =
    d !!! (r * width + k).
Proof.
  intros Hcol Hrows Hout Hk.
  apply (eliminate_rows_local pivot first last Hcol Hrows). nia.
Qed.

End Elimination.

Lemma eliminate_rows_empty width c p first last d :
  last <= first -> eliminate_rows width c p first last d = d.
Proof.
  intros H. unfold eliminate_rows. by replace (last - first) with 0 by lia.
Qed.

Lemma eliminate_rows_split width c p a b e d :
  a <= b -> b <= e ->
  eliminate_rows width c p b e (eliminate_rows width c p a b d) =
  eliminate_rows width c p a e d.
Proof.
  intros Hab Hbe. unfold eliminate_rows.
  replace (e - a) with ((b - a) + (e - b)) by lia.
  rewrite seq_app, fold_left_app. by replace (a + (b - a)) with b by lia.
Qed.

(** ** Workers on disjoint row ranges do not disturb one another *)

Section Interleaving.

Variables width n c : nat.
Hypothesis c_in_row : c < width.

Let plo := c * width.
Let phi := c * width + width.

(** What is left of a worker's task works on the rows of its range. *)
Lemma thread_finish_local th :
  thread_ok n c th ->
  local plo phi (start_row (th_task th) * width) (end_row (th_task th) * width)
        (fun d => thread_finish width d th).
Proof using All.
  intros [(Hcol & Hstart & Hend) Hpc]. unfold thread_finish, worker_work.
  destruct (th_pc th) as [| pivot row | pivot row factor k |].
  - destruct (start_row (th_task th) <? end_row (th_task th));
      [| apply local_id].
    rewrite Hcol.
    pose proof (fun p f l => eliminate_rows_local width c p f l c_in_row) as Hloc.
    split; [| split].
    + intros d. by apply Hloc; left.
    + intros d i Hout. by apply Hloc; [left |].
    + intros d d' Hlen Hagree i Hi.
      rewrite (Hagree (c * width + c)) by (right; unfold plo, phi; lia).
      apply (Hloc (d' !!! (c * width + c)) (start_row (th_task th))
                  (end_row (th_task th)) ltac:(by left)); done.
  - rewrite Hcol.
    apply (local_weaken plo phi (row * width) (end_row (th_task th) * width));
      [nia | lia |].
    apply (eliminate_rows_local width c); [done | lia].
  - rewrite Hcol. destruct Hpc as [Hlo Hhi].
    apply (local_compose plo phi _ _
             (fun d => fold_left (axpy width c row factor) (seq k (width - k)) d)
             (fun d => eliminate_rows width c pivot (S row)
                         (end_row (th_task th)) d)).
    + apply (rows_apart width c). lia.
    + apply (local_weaken plo phi (row * width) (row * width + width));
        [nia | nia |].
      apply (axpy_fold_local width c); [lia |].
      apply columns_in_row.
    + apply (local_weaken plo phi (S row * width)
               (end_row (th_task th) * width)); [nia | lia |].
      apply (eliminate_rows_local width c); [done | lia].
  - apply local_id.
Qed.

(** The workers listed before a given one work below its range. *)
Lemma threads_finish_local ths bound :
  c < bound ->
  Forall (fun th => thread_ok n c th /\ end_row (th_task th) <= bound) ths ->
  local plo phi ((c + 1) * width) (bound * width)
        (fun d => fold_left (thread_finish width) ths d).
Proof using All.
  intros Hbound Hths. apply local_fold; [right; unfold phi; lia |].
  eapply Forall_impl; [exact Hths |]. intros th [Hok Hend]. simpl in *.
  pose proof Hok as [(Hcol & Hstart & _) _].
  apply (local_weaken plo phi (start_row (th_task th) * width)
           (end_row (th_task th) * width)); [nia | nia |].
  by apply thread_finish_local.
Qed.

(** One step of any worker leaves the outcome of the round unchanged. *)
Lemma thread_step_outcome ths d i th :
  Forall (thread_ok n c) ths -> ordered (th_task <$> ths) ->
  ths !! i = Some th ->
  fold_left (thread_finish width) (<[i := (thread_step width th d).1]> ths)
            (thread_step width th d).2 =
    fold_left (thread_finish width) ths d /\
  thread_ok n c (thread_step width th d).1 /\
  th_task (thread_step width th d).1 = th_task th.
Proof using All.
  intros Hoks Hord Hi.
  pose proof (take_drop_middle ths i th Hi) as Hsplit.
  assert (Hprelen : length (take i ths) = i).
  { apply lookup_lt_Some in Hi. rewrite length_take. lia. }
  revert Hsplit Hprelen.
  generalize (take i ths) as pre. generalize (drop (S i) ths) as post.
  intros post pre Hsplit Hprelen. subst ths.
  assert (Hins : forall th', <[i := th']> (pre ++ th :: post) = pre ++ th' :: post).
  { intros th'. rewrite <- Hprelen at 1. rewrite insert_app_r_alt by lia.
    by rewrite Nat.sub_diag. }
  apply Forall_app in Hoks as [Hpre Hrest].
  apply Forall_cons in Hrest as [Hth Hpost].
  assert (Hbelow : Forall (fun th0 => thread_ok n c th0 /\
                             end_row (th_task th0) <= start_row (th_task th))
                          pre).
  { apply Forall_lookup. intros j th0 Hj. split.
    - by apply (proj1 (Forall_lookup _ _) Hpre j).
    - assert (j < i) by (apply lookup_lt_Some in Hj; lia).
      apply (Hord j i (th_task th0) (th_task th)); [done | |].
      + rewrite list_lookup_fmap.
        rewrite lookup_app_l by lia. by rewrite Hj.
      + rewrite list_lookup_fmap. by rewrite Hi. }
  pose proof Hth as [(Hcol & Hstart & Hend) Hpc].
  pose proof (threads_finish_local pre (start_row (th_task th)) Hstart Hbelow)
    as Hprelocal.
  (* the workers listed before [th] could as well run before its step *)
  assert (Hswap : fold_left (thread_finish width) pre (thread_step width th d).2
                  = (thread_step width th
                       (fold_left (thread_finish width) pre d)).2
                  /\ (thread_step width th
                        (fold_left (thread_finish width) pre d)).1
                     = (thread_step width th d).1).
  { destruct Hprelocal as (_ & Hpreframe & _).
    assert (Hpiv : fold_left (thread_finish width) pre d !!! (c * width + c)
                   = d !!! (c * width + c)) by (apply Hpreframe; lia).
    unfold thread_step. rewrite Hcol.
    destruct (th_pc th) as [| pivot row | pivot row factor k |]; simpl.
    - destruct (_ <? _); simpl; [| done]. by rewrite Hpiv.
    - destruct (_ <? _); simpl; [| done]. split; [done |].
      rewrite (Hpreframe d (row * width + c)); [done |]. nia.
    - destruct (k <? width) eqn:Ek; simpl; [| done]. split; [| done].
      apply Nat.ltb_lt in Ek. destruct Hpc as [Hlo Hhi].
      apply (local_comm plo phi ((c + 1) * width)
               (start_row (th_task th) * width)
               (row * width) (row * width + width)
               (fun d => fold_left (thread_finish width) pre d)
               (fun d => axpy width c row factor d k)).
      + left. nia.
      + right. unfold phi. lia.
      + right. unfold phi. nia.
      + exact (threads_finish_local pre (start_row (th_task th)) Hstart Hbelow).
      + apply (axpy_local width c); lia.
    - done. }
  destruct Hswap as [Hswap Hsame].
  rewrite <- Hsame, Hins, !fold_left_app, Hswap. simpl.
  generalize (fold_left (thread_finish width) pre d) as d0. intros d0.
  clear Hswap Hsame Hprelocal Hbelow Hins Hi Hord.
  unfold thread_step, thread_ok, task_in, thread_finish.
  destruct (th_pc th) as [| pivot row | pivot row factor k |] eqn:Epc; simpl.
  - destruct (start_row (th_task th) <? end_row (th_task th)) eqn:Elt; simpl.
    + split; [| by auto]. f_equal.
      unfold worker_work. by rewrite Elt.
    + split; [| by auto]. f_equal.
      unfold worker_work. by rewrite Elt.
  - destruct (row <? end_row (th_task th)) eqn:Elt; simpl.
    + apply Nat.ltb_lt in Elt. split; [| by auto]. f_equal.
      unfold eliminate_rows at 2.
      replace (end_row (th_task th) - row)
        with (S (end_row (th_task th) - S row)) by lia.
      done.
    + apply Nat.ltb_ge in Elt. split; [| by auto]. f_equal.
      by rewrite eliminate_rows_empty.
  - destruct Hpc as [Hlo Hhi].
    destruct (k <? width) eqn:Ek; simpl.
    + apply Nat.ltb_lt in Ek. split; [| by auto]. do 2 f_equal.
      replace (width - k) with (S (width - S k)) by lia. done.
    + apply Nat.ltb_ge in Ek. split; [| split; [split; [done | lia] | done]].
      f_equal. by replace (width - k) with 0 by lia.
  - rewrite Epc. by auto.
Qed.

(** Whatever the schedule, completing the workers afterwards gives what
    completing them one after the other from the start gives. *)
Lemma run_schedule_outcome sched : forall ths d,
  Forall (thread_ok n c) ths -> ordered (th_task <$> ths) ->
  fold_left (thread_finish width) (run_schedule width sched ths d).1
            (run_schedule width sched ths d).2 =
    fold_left (thread_finish width) ths d.
Proof using All.
  induction sched as [| i sched IH]; intros ths d Hoks Hord; simpl; [done |].
  destruct (ths !! i) as [th |] eqn:Hi; [| by apply IH].
  destruct (thread_step_outcome ths d i th Hoks Hord Hi)
    as (Hout & Hok' & Htask).
  destruct (thread_step width th d) as [th' d'] eqn:Estep. simpl in *.
  rewrite IH; [done | |].
  - apply Forall_insert; done.
  - rewrite list_fmap_insert. rewrite Htask.
    rewrite list_insert_id; [done |].
    rewrite list_lookup_fmap. by rewrite Hi.
Qed.

End Interleaving.

(** ** The row ranges of a round *)

Lemma assign_loop_lookup n c chunk : forall todo k j t,
  assign_loop n c chunk todo k !! j = Some t ->
  t = {| command := Work; column := c;
         start_row := c + 1 + (k + j) * chunk;
         end_row := Nat.min n (c + 1 + (k + j) * chunk + chunk) |} /\
  c + 1 + (k + j) * chunk < n /\ j < todo.
Proof.
  induction todo as [| todo IH]; intros k j t; simpl; [done |].
  destruct (n <=? c + 1 + k * chunk) eqn:E; [done |].
  apply Nat.leb_gt in E.
  destruct j as [| j]; simpl.
  - intros [= <-]. rewrite Nat.add_0_r. split; [done | lia].
  - intros H. apply IH in H as (-> & Hlt & Hj).
    replace (S k + j) with (k + S j) in * by lia. split; [done | lia].
Qed.

Lemma assign_loop_length n c chunk : forall todo k j,
  j < length (assign_loop n c chunk todo k) <->
  j < todo /\ c + 1 + (k + j) * chunk < n.
Proof.
  induction todo as [| todo IH]; intros k j; simpl; [lia |].
  destruct (n <=? c + 1 + k * chunk) eqn:E.
  - apply Nat.leb_le in E. simpl. split; [lia |]. intros [_ H]. nia.
  - apply Nat.leb_gt in E. simpl. destruct j as [| j].
    + rewrite Nat.add_0_r. lia.
    + specialize (IH (S k) j).
      replace (S k + j) with (k + S j) in IH by lia. lia.
Qed.

(** The workers of a round, each run alone in turn, perform the row loop
    of the sequential engine. *)
Lemma assign_loop_work width n c p chunk :
  0 < chunk -> c < width ->
  forall todo k d,
    d !!! (c * width + c) = p ->
    fold_left (fun d t => worker_work width t d) (assign_loop n c chunk todo k) d =
    eliminate_rows width c p (c + 1 + k * chunk)
                   (Nat.min n (c + 1 + k * chunk + todo * chunk)) d.
Proof.
  intros Hchunk Hcw. induction todo as [| todo IH]; intros k d Hp; simpl.
  - rewrite eliminate_rows_empty by lia. done.
  - destruct (n <=? c + 1 + k * chunk) eqn:E.
    + apply Nat.leb_le in E. rewrite eliminate_rows_empty by lia. done.
    + apply Nat.leb_gt in E. simpl.
      unfold worker_work at 2. simpl.
      rewrite (proj2 (Nat.ltb_lt _ _)) by lia. rewrite Hp.
      rewrite (IH (S k)).
      2:{ rewrite <- Hp. apply eliminate_rows_other_row; lia. }
      replace (c + 1 + S k * chunk + todo * chunk)
        with (c + 1 + k * chunk + (chunk + todo * chunk)) by lia.
      destruct (le_lt_dec (c + 1 + k * chunk + chunk) n) as [Hfit | Hover].
      * rewrite (Nat.min_r n (c + 1 + k * chunk + chunk)) by lia.
        replace (c + 1 + S k * chunk) with (c + 1 + k * chunk + chunk) by lia.
        apply eliminate_rows_split; lia.
      * rewrite (Nat.min_l n (c + 1 + k * chunk + chunk)) by lia.
        rewrite (eliminate_rows_empty _ _ _ (c + 1 + S k * chunk)) by lia.
        by rewrite (Nat.min_l n (c + 1 + k * chunk + (chunk + todo * chunk))) by lia.
Qed.

(** The arithmetic of a round with at least one worker and one row left. *)
Lemma chunk_covers budget remaining :
  1 <= budget -> 1 <= remaining ->
  let active := Nat.min budget remaining in
  let chunk := (remaining + active - 1) / active in
  1 <= active /\ 1 <= chunk /\ remaining <= active * chunk /\
  (active - 1) * chunk < remaining + active - 1.
Proof.
  intros Hb Hr active chunk.
  assert (Ha : 1 <= active) by (unfold active; lia).
  pose proof (Nat.div_mod_eq (remaining + active - 1) active) as Hdm.
  pose proof (Nat.mod_upper_bound (remaining + active - 1) active) as Hmod.
  fold chunk in Hdm.
  assert (Hle : active <= remaining) by (unfold active; lia).
  repeat split; try done; nia.
Qed.

Lemma plan_round_lookup n budget c k t :
  plan_round n budget c !! k = Some t ->
  let remaining := n - c - 1 in
  let active := Nat.min budget remaining in
  let chunk := (remaining + active - 1) / active in
  t = {| command := Work; column := c;
         start_row := c + 1 + k * chunk;
         end_row := Nat.min n (c + 1 + (k + 1) * chunk) |} /\
  c + 1 + k * chunk < n /\ k < active.
Proof.
  unfold plan_round. intros H. apply assign_loop_lookup in H as (-> & Hlt & Hk).
  simpl in *. split; [| done]. f_equal. lia.
Qed.

Lemma plan_round_task_in n budget c :
  1 <= budget -> c + 1 < n ->
  Forall (task_in n c) (plan_round n budget c).
Proof.
  intros Hb Hc. apply Forall_lookup. intros k t Hk.
  apply plan_round_lookup in Hk as (-> & Hlt & Hka).
  unfold task_in. simpl. lia.
Qed.

Lemma plan_round_ordered n budget c :
  1 <= budget -> c + 1 < n -> ordered (plan_round n budget c).
Proof.
  intros Hb Hc i j ti tj Hij Hi Hj.
  apply plan_round_lookup in Hi as (-> & _ & _).
  apply plan_round_lookup in Hj as (-> & _ & _). simpl.
  destruct (chunk_covers budget (n - c - 1)) as (_ & Hchunk & _); [lia | lia |].
  nia.
Qed.

Lemma plan_round_work width n budget c d :
  1 <= budget -> c + 1 < n -> c < width ->
  fold_left (fun d t => worker_work width t d) (plan_round n budget c) d =
  eliminate_rows width c (d !!! (c * width + c)) (c + 1) n d.
Proof.
  intros Hb Hc Hcw. unfold plan_round.
  destruct (chunk_covers budget (n - c - 1)) as (Ha & Hchunk & Hcover & _);
    [lia | lia |].
  rewrite (assign_loop_work width n c (d !!! (c * width + c))); [| lia | done | done].
  rewrite Nat.mul_0_l, Nat.add_0_r.
  rewrite Nat.min_l; [done |]. nia.
Qed.

(** The barrier of a round computes the sequential row loop, whatever
    the order in which the kernel ran the workers. *)
Lemma barrier_is_elimination width n budget c sched d :
  1 <= budget -> c + 1 < n -> c < width ->
  barrier width sched (plan_round n budget c) d =
  eliminate_rows width c (d !!! (c * width + c)) (c + 1) n d.
Proof.
  intros Hb Hc Hcw. unfold barrier.
  set (started := map _ _).
  assert (Hoks : Forall (thread_ok n c) started).
  { unfold started. apply Forall_fmap.
    eapply Forall_impl; [by apply plan_round_task_in |].
    intros t Ht. by split. }
  assert (Hord : ordered (th_task <$> started)).
  { unfold started.
    assert (Hback : forall ts : list WorkerTask,
               th_task <$> map (fun t => {| th_task := t; th_pc := NotStarted |}) ts
               = ts).
    { induction ts as [| t ts IH]; cbn; [done |]. by f_equal. }
    rewrite Hback. by apply plan_round_ordered. }
  pose proof (run_schedule_outcome width n c Hcw sched started d Hoks Hord)
    as Hout.
  destruct (run_schedule width sched started d) as [ths d']. simpl in Hout.
  rewrite Hout. rewrite <- (plan_round_work width n budget c d) by done.
  unfold started. clear.
  generalize (plan_round n budget c) as ts. intros ts. revert d.
  induction ts as [| t ts IH]; intros d; simpl; [done |]. apply IH.
Qed.

(** ** Reasoning about the orchestrator *)

Lemma wp_bind {A B} (m : M A) (k : A -> M B) Q w :
  wp m (fun r w' => match r with
                    | Return a => wp (k a) Q w'
                    | Throw e => Q (Throw e) w'
                    end) w ->
  wp (bind m k) Q w.
Proof.
  unfold wp, bind. destruct (m w) as [[a | e] w']; simpl; done.
Qed.

Lemma wp_mono {A} (m : M A) (Q Q' : result A -> World -> Prop) w :
  wp m Q w -> (forall r w', Q r w' -> Q' r w') -> wp m Q' w.
Proof. unfold wp. intros H HQ. by apply HQ. Qed.

(** A loop whose body always returns, with an invariant indexed by the
    loop counter. *)
Lemma wp_for_each_seq (I : nat -> World -> Prop) (body : nat -> M unit) m :
  forall a w,
    I a w ->
    (forall k w', a <= k < a + m -> I k w' ->
       wp (body k) (fun r w'' => r = Return tt /\ I (S k) w'') w') ->
    wp (for_each (seq a m) body) (fun r w' => r = Return tt /\ I (a + m) w') w.
Proof.
  induction m as [| m IH]; intros a w HI Hbody; simpl.
  - unfold wp, ret. simpl. rewrite Nat.add_0_r. done.
  - apply wp_bind. eapply wp_mono; [apply (Hbody a w); [lia | done] |].
    intros r w' [-> HI']. replace (a + S m) with (S a + m) by lia.
    apply IH; [done |]. intros k w'' Hk. apply Hbody. lia.
Qed.

Lemma insert_replicate_boundary {A} (x y : A) k b :
  k < b ->
  <[k := x]> (replicate k x ++ replicate (b - k) y) =
  replicate (S k) x ++ replicate (b - S k) y.
Proof.
  intros Hk. replace (b - k) with (S (b - S k)) by lia.
  rewrite (replicate_S_end k x), <- app_assoc.
  rewrite insert_app_r_alt by (rewrite length_replicate; lia).
  by rewrite length_replicate, Nat.sub_diag.
Qed.

Lemma lookup_replicate_boundary {A} (x y : A) k b :
  k < b -> (replicate k x ++ replicate (b - k) y) !! k = Some y.
Proof.
  intros Hk. rewrite lookup_app_r by (rewrite length_replicate; lia).
  rewrite length_replicate, Nat.sub_diag.
  replace (b - k) with (S (b - S k)) by lia. done.
Qed.

Section FaultFree.

Variable env : Env.
Hypothesis no_fault : fault_free env.

(** Run straight-line code of the orchestrator when no call fails. *)
Ltac run_ok :=
  unfold wp, bind, syscall, emit, modify, gets, ret, throw, lift; simpl;
  repeat (rewrite no_fault; simpl).

Lemma mmap_ok total_bytes w :
  wp (mmap env total_bytes)
     (fun r w' => r = Return true /\
                  shm w' = Some (replicate (total_bytes / sizeof_double) 0%float) /\
                  procs w' = procs w /\
                  trace w' = trace w ++ [Mmap total_bytes]) w.
Proof. unfold mmap. run_ok. done. Qed.

Lemma spawn_worker_ok w :
  wp (spawn_worker env)
     (fun r w' => r = Return tt /\ shm w' = shm w /\
                  procs w' = procs w ++ [Ready] /\
                  (no_teardown w -> no_teardown w')) w.
Proof.
  unfold spawn_worker. run_ok.
  do 3 (split; [done |]). unfold no_teardown. simpl. intros H.
  apply Forall_app. split; [done |]. by repeat constructor.
Qed.

Lemma spawn_loop_ok budget w :
  wp (for_each (seq 0 budget) (fun _ => spawn_worker env))
     (fun r w' => r = Return tt /\ shm w' = shm w /\
                  procs w' = procs w ++ replicate budget Ready /\
                  (no_teardown w -> no_teardown w')) w.
Proof.
  eapply wp_mono.
  - apply (wp_for_each_seq
             (fun k w' => shm w' = shm w /\
                          procs w' = procs w ++ replicate k Ready /\
                          (no_teardown w -> no_teardown w'))).
    + simpl. rewrite app_nil_r. done.
    + intros k w' _ (Hs & Hp & Ht).
      eapply wp_mono; [apply spawn_worker_ok |].
      intros r w'' (-> & Hs' & Hp' & Ht').
      split; [done |]. split; [congruence |]. split; [| by auto].
      rewrite Hp', Hp, <- app_assoc. by rewrite replicate_S_end.
  - intros r w' (-> & H). done.
Qed.

Lemma send_task_ok idx cmd col start end_ w :
  wp (send_task env idx cmd col start end_)
     (fun r w' => r = Return tt /\ shm w' = shm w /\ procs w' = procs w /\
                  (cmd <> Exit -> no_teardown w -> no_teardown w')) w.
Proof.
  unfold send_task. run_ok.
  do 3 (split; [done |]). intros Hcmd H. unfold no_teardown. simpl.
  apply Forall_app. split; [done |]. repeat constructor. simpl.
  by apply Nat.eqb_neq.
Qed.

Lemma wait_ack_ok idx w :
  wp (wait_ack env idx)
     (fun r w' => r = Return tt /\ shm w' = shm w /\ procs w' = procs w /\
                  (no_teardown w -> no_teardown w')) w.
Proof.
  unfold wait_ack. run_ok.
  do 3 (split; [done |]). intros H. unfold no_teardown. simpl.
  apply Forall_app. split; [done |]. by repeat constructor.
Qed.

Lemma wait_loop_ok count w :
  wp (for_each (seq 0 count) (wait_ack env))
     (fun r w' => r = Return tt /\ shm w' = shm w /\ procs w' = procs w /\
                  (no_teardown w -> no_teardown w')) w.
Proof.
  eapply wp_mono.
  - apply (wp_for_each_seq
             (fun _ w' => shm w' = shm w /\ procs w' = procs w /\
                          (no_teardown w -> no_teardown w'))); [done |].
    intros k w' _ (Hs & Hp & Ht).
    eapply wp_mono; [apply wait_ack_ok |].
    intros r w'' (-> & Hs' & Hp' & Ht').
    split; [done |]. split; [congruence |]. split; [congruence | by auto].
  - intros r w' (-> & H). done.
Qed.

Lemma send_loop_ok (tasks : list WorkerTask) w :
  Forall (fun t => command t <> Exit) tasks ->
  wp (for_each (zip (seq 0 (length tasks)) tasks) (send_planned env))
     (fun r w' => r = Return tt /\ shm w' = shm w /\ procs w' = procs w /\
                  (no_teardown w -> no_teardown w')) w.
Proof.
  generalize 0 as a. intros a Hcmd. revert a w.
  induction tasks as [| t tasks IH]; intros a w; simpl.
  - unfold wp, ret. simpl. done.
  - apply Forall_cons in Hcmd as [Ht Hts].
    apply wp_bind. eapply wp_mono; [apply send_task_ok |].
    intros r w' (-> & Hs & Hp & Hn).
    eapply wp_mono; [apply (IH Hts (S a)) |].
    intros r w'' (-> & Hs' & Hp' & Hn').
    split; [done |]. split; [congruence |]. split; [congruence |].
    intros H. apply Hn'. by apply Hn.
Qed.

(** One round of the column loop does what one turn of the sequential
    column loop does. *)
Lemma column_round_ok width n budget col d w :
  1 <= budget -> col < n -> n < width ->
  shm w = Some d ->
  wp (column_round env width n budget col)
     (fun r w' =>
        procs w' = procs w /\ (no_teardown w -> no_teardown w') /\
        match forward_column width n d col with
        | Return d' => r = Return tt /\ shm w' = Some d'
        | Throw e => r = Throw e /\ shm w' = Some d
        end) w.
Proof.
  intros Hb Hcol Hw Hshm. unfold column_round, forward_column.
  apply wp_bind. unfold wp at 1, read_shared, gets. simpl. rewrite Hshm. simpl.
  destruct (too_small (d !!! (col * width + col))) eqn:Esmall.
  { unfold wp, throw. simpl. done. }
  destruct (n - col - 1 =? 0) eqn:Elast.
  { apply Nat.eqb_eq in Elast. unfold wp, ret. simpl.
    rewrite eliminate_rows_empty by lia. done. }
  apply Nat.eqb_neq in Elast.
  apply wp_bind. eapply wp_mono.
  { apply send_loop_ok. apply Forall_lookup. intros k t Hk.
    apply plan_round_lookup in Hk as (-> & _). done. }
  intros r w1 (-> & Hs1 & Hp1 & Hn1).
  apply wp_bind. unfold wp at 1, run_workers, modify. simpl.
  eapply wp_mono; [apply wait_loop_ok |].
  intros r w2 (-> & Hs2 & Hp2 & Hn2). simpl in *.
  split; [congruence |]. split; [by auto |]. split; [done |].
  rewrite Hs2, Hs1, Hshm. simpl. f_equal.
  apply barrier_is_elimination; [done | lia | lia].
Qed.

Lemma column_loop_ok width n budget :
  1 <= budget -> n < width ->
  forall m a d w,
    a + m <= n -> shm w = Some d ->
    wp (for_each (seq a m) (column_round env width n budget))
       (fun r w' =>
          procs w' = procs w /\ (no_teardown w -> no_teardown w') /\
          match foldM (forward_column width n) (seq a m) d with
          | Return d' => r = Return tt /\ shm w' = Some d'
          | Throw e => r = Throw e /\ is_Some (shm w')
          end) w.
Proof.
  intros Hb Hw. induction m as [| m IH]; intros a d w Ham Hshm; simpl.
  - unfold wp, ret. simpl. done.
  - apply wp_bind. eapply wp_mono.
    { apply (column_round_ok width n budget a d); [done | lia | done | done]. }
    intros r w1 (Hp1 & Hn1 & Hcol).
    destruct (forward_column width n d a) as [d1 | e] eqn:Efc; simpl.
    + destruct Hcol as [-> Hs1].
      eapply wp_mono.
      { apply (IH (S a) d1); [lia | done]. }
      intros r w2 (Hp2 & Hn2 & Hrest).
      split; [congruence |]. split; [by auto | done].
    + destruct Hcol as [-> Hs1]. split; [done |]. split; [done |].
      split; [done |]. by rewrite Hs1.
Qed.

Lemma send_exit_ok width idx w :
  procs w !! idx = Some Ready ->
  wp (send_exit env width idx)
     (fun r w' => r = Return tt /\ shm w' = shm w /\
                  procs w' = <[idx := Terminated 0]> (procs w)) w.
Proof.
  intros Hready. unfold send_exit, send_task, worker_reacts. run_ok.
  rewrite Hready. simpl. done.
Qed.

Lemma exit_loop_ok width budget w :
  procs w = replicate budget Ready ->
  wp (for_each (seq 0 budget) (send_exit env width))
     (fun r w' => r = Return tt /\ shm w' = shm w /\
                  procs w' = replicate budget (Terminated 0)) w.
Proof.
  intros Hprocs. eapply wp_mono.
  - apply (wp_for_each_seq
             (fun k w' => shm w' = shm w /\
                procs w' = replicate k (Terminated 0) ++
                           replicate (budget - k) Ready)).
    + simpl. by rewrite Nat.sub_0_r.
    + intros k w' Hk (Hs & Hp).
      eapply wp_mono.
      { apply send_exit_ok. rewrite Hp. apply lookup_replicate_boundary. lia. }
      intros r w'' (-> & Hs' & Hp').
      split; [done |]. split; [congruence |].
      rewrite Hp', Hp. apply insert_replicate_boundary. lia.
  - intros r w' (-> & Hs & Hp). simpl in Hp.
    rewrite Nat.sub_diag in Hp. simpl in Hp. rewrite app_nil_r in Hp. done.
Qed.

Lemma reap_ok idx w :
  procs w !! idx = Some (Terminated 0) ->
  wp (reap env idx)
     (fun r w' => r = Return tt /\ shm w' = shm w /\
                  procs w' = <[idx := Reaped]> (procs w)) w.
Proof.
  intros Hdone. unfold reap. run_ok. rewrite Hdone. simpl. done.
Qed.

Lemma reap_loop_ok budget w :
  procs w = replicate budget (Terminated 0) ->
  wp (for_each (seq 0 budget) (reap env))
     (fun r w' => r = Return tt /\ shm w' = shm w /\
                  procs w' = replicate budget Reaped) w.
Proof.
  intros Hprocs. eapply wp_mono.
  - apply (wp_for_each_seq
             (fun k w' => shm w' = shm w /\
                procs w' = replicate k Reaped ++
                           replicate (budget - k) (Terminated 0))).
    + simpl. by rewrite Nat.sub_0_r.
    + intros k w' Hk (Hs & Hp).
      eapply wp_mono.
      { apply reap_ok. rewrite Hp. apply lookup_replicate_boundary. lia. }
      intros r w'' (-> & Hs' & Hp').
      split; [done |]. split; [congruence |].
      rewrite Hp', Hp. apply insert_replicate_boundary. lia.
  - intros r w' (-> & Hs & Hp). simpl in Hp.
    rewrite Nat.sub_diag in Hp. simpl in Hp. rewrite app_nil_r in Hp. done.
Qed.

End FaultFree.

Lemma wp_guard {A} bytes (scope : M A) Q w :
  wp scope (fun r w' => Q r (munmap bytes w')) w ->
  wp (SharedMatrixGuard bytes scope) Q w.
Proof.
  unfold wp, SharedMatrixGuard. destruct (scope w) as [r w']. done.
Qed.

Lemma to_size_t_small (z : Z) :
  (0 <= z < 2 ^ 64)%Z -> to_size_t z = Z.to_nat z.
Proof. intros Hz. unfold to_size_t. by rewrite Z.mod_small. Qed.

(** [rows + 1] wraps to [0] at [SIZE_MAX] and nowhere else. *)
Lemma size_t_successor (r : nat) :
  (Z.of_nat r < 2 ^ 64)%Z ->
  to_size_t (Z.of_nat r + 1) =
    if bool_decide (Z.of_nat r = 2 ^ 64 - 1)%Z then 0 else r + 1.
Proof.
  intros Hr. case_bool_decide as Hmax.
  - unfold to_size_t. rewrite Hmax.
    replace (2 ^ 64 - 1 + 1)%Z with (2 ^ 64)%Z by lia.
    by rewrite Z.mod_same.
  - rewrite to_size_t_small by lia. lia.
Qed.

Lemma validate_augmented_ok (augmented : CppMatrix) :
  1 <= rows augmented -> cols augmented = rows augmented + 1 ->
  (Z.of_nat (cols augmented) < 2 ^ 64)%Z ->
  validate_augmented augmented = Return tt.
Proof.
  intros Hrows Hcols Hfit. unfold validate_augmented.
  rewrite (proj2 (Nat.eqb_neq _ _)) by lia.
  rewrite to_size_t_small by lia.
  replace (Z.to_nat (Z.of_nat (rows augmented) + 1)) with (rows augmented + 1)
    by lia.
  by rewrite (proj2 (Nat.eqb_eq _ _) Hcols).
Qed.

(** A well-formed augmented matrix: no size computed for it wraps. *)
Lemma well_formed_fits (m : CppMatrix) :
  well_formed m -> 1 <= rows m -> cols m = rows m + 1 ->
  (Z.of_nat (cols m) < 2 ^ 64)%Z /\
  region_bytes m / sizeof_double = rows m * cols m.
Proof.
  intros [Hlen Hfit] Hrows Hcols. rewrite Hlen in Hfit.
  unfold sizeof_double in *. split; [nia |].
  unfold region_bytes, sizeof_double.
  rewrite (to_size_t_small (Z.of_nat (rows m) * Z.of_nat (cols m))) by nia.
  rewrite to_size_t_small by nia.
  replace (Z.to_nat (Z.of_nat (Z.to_nat (Z.of_nat (rows m) * Z.of_nat (cols m))) *
                     Z.of_nat 8))
    with (rows m * cols m * 8) by nia.
  by rewrite Nat.div_mul.
Qed.

Lemma std_copy_exact (src : list double) :
  take (length (replicate (length src) 0%float)) src ++
  drop (length src) (replicate (length src) 0%float) = src.
Proof.
  rewrite length_replicate, firstn_all.
  rewrite drop_ge by (by rewrite length_replicate). apply app_nil_r.
Qed.

(** The whole run of the parallel engine when no system call fails: the
    result is the sequential engine's, the region is unmapped, and the
    workers are reaped exactly when forward elimination went through. *)
Lemma gaussian_parallel_run env augmented max_processes :
  fault_free env -> well_formed augmented ->
  2 <= rows augmented -> cols augmented = rows augmented + 1 ->
  let budget := process_budget env max_processes (rows augmented) in
  let out := gaussian_parallel env augmented max_processes in
  out.1 = gaussian_sequential augmented /\
  shm out.2 = None /\
  match forward_elimination (cols augmented) (rows augmented) (data augmented) with
  | Return _ => procs out.2 = replicate budget Reaped
  | Throw _ => procs out.2 = replicate budget Ready /\ no_teardown out.2
  end.
Proof.
  intros Hff Hwf Hrows Hcols budget out. subst out.
  unfold gaussian_parallel.
  change (wp (gaussian_parallel_body env augmented max_processes)
            (fun r w =>
               r = gaussian_sequential augmented /\ shm w = None /\
               match forward_elimination (cols augmented) (rows augmented)
                                         (data augmented) with
               | Return _ => procs w = replicate budget Reaped
               | Throw _ => procs w = replicate budget Ready /\ no_teardown w
               end) fresh).
  destruct (well_formed_fits augmented Hwf ltac:(lia) Hcols) as [Hfit Hregion].
  unfold gaussian_parallel_body, gaussian_sequential.
  rewrite validate_augmented_ok by (done || lia).
  apply wp_bind. unfold wp at 1, lift. simpl.
  rewrite (proj2 (Nat.ltb_ge _ _)) by lia.
  apply wp_bind. eapply wp_mono; [by apply mmap_ok |].
  intros r w1 (-> & Hs1 & Hp1 & Ht1).
  fold (region_bytes augmented) in Hs1, Ht1. rewrite Hregion in Hs1. simpl.
  apply wp_guard.
  apply wp_bind. unfold wp at 1, std_copy, modify. simpl.
  apply wp_bind. eapply wp_mono; [by apply spawn_loop_ok |].
  intros r w3 (-> & Hs3 & Hp3 & Hn3). simpl in Hs3, Hp3, Hn3.
  rewrite Hs1 in Hs3. simpl in Hs3. rewrite Hp1 in Hp3. simpl in Hp3.
  destruct Hwf as [Hwf _]. rewrite <- Hwf in Hs3.
  rewrite std_copy_exact in Hs3.
  assert (Hbudget : 1 <= process_budget env max_processes (rows augmented)).
  { unfold process_budget. lia. }
  apply wp_bind. eapply wp_mono.
  { apply (column_loop_ok env Hff (cols augmented) (rows augmented) _ Hbudget
             ltac:(lia) (rows augmented) 0 (data augmented) w3);
      [lia | done]. }
  intros r w4 (Hp4 & Hn4 & Hfw). fold budget in Hp3.
  unfold forward_elimination.
  destruct (foldM (forward_column (cols augmented) (rows augmented))
                  (seq 0 (rows augmented)) (data augmented)) as [d | e] eqn:Efw.
  - destruct Hfw as [-> Hs4]. simpl.
    apply wp_bind. unfold wp at 1, gets. simpl.
    rewrite Hp4, Hp3, length_replicate.
    apply wp_bind. eapply wp_mono.
    { apply exit_loop_ok; [done | congruence]. }
    intros r w5 (-> & Hs5 & Hp5).
    apply wp_bind. eapply wp_mono; [by apply wait_loop_ok |].
    intros r w6 (-> & Hs6 & Hp6 & _).
    apply wp_bind. eapply wp_mono.
    { apply reap_loop_ok; [done | congruence]. }
    intros r w7 (-> & Hs7 & Hp7).
    apply wp_bind. unfold wp at 1, read_shared, gets. simpl.
    rewrite Hs7, Hs6, Hs5, Hs4. simpl.
    unfold wp, lift. simpl. done.
  - destruct Hfw as [-> Hs4]. simpl.
    split; [done |]. split; [done |]. split; [congruence |].
    unfold no_teardown, munmap. simpl.
    apply Forall_app. split; [| by repeat constructor].
    apply Hn4, Hn3. unfold no_teardown. simpl. rewrite Ht1. simpl.
    by repeat constructor.
Qed.

(** ** Well-conditioned systems *)

Lemma forward_well_conditioned width n columns : forall d,
  Forall (fun pivot => (kEpsilon <=? fabs pivot)%float = true)
         (forward_pivots width n columns d) ->
  foldM (forward_column width n) columns d =
    Return (eliminated width n columns d).
Proof.
  induction columns as [| col rest IH]; intros d Hbig; simpl in *; [done |].
  apply Forall_cons in Hbig as [Hp Hrest].
  unfold forward_column at 1.
  rewrite (big_enough_not_too_small _ Hp). simpl. by apply IH.
Qed.

Lemma forward_failure_is_singular width n columns : forall d e,
  foldM (forward_column width n) columns d = Throw e ->
  e = runtime_error singular_what.
Proof.
  induction columns as [| col rest IH]; intros d e; simpl; [done |].
  unfold forward_column at 1.
  destruct (too_small _); simpl; [by intros [= <-] | apply IH].
Qed.

Lemma back_rows_length width n d rows_desc : forall solution x,
  foldM (back_row width n d) rows_desc solution = Return x ->
  length x = length solution.
Proof.
  induction rows_desc as [| i rest IH]; intros solution x; simpl.
  - by intros [= <-].
  - unfold back_row at 1. destruct (too_small _); simpl; [done |].
    intros H. apply IH in H. by rewrite length_insert in H.
Qed.

Lemma back_rows_well_conditioned width n d rows_desc : forall solution,
  Forall (fun pivot => (kEpsilon <=? fabs pivot)%float = true)
         (back_pivots width rows_desc d) ->
  exists x, foldM (back_row width n d) rows_desc solution = Return x.
Proof.
  induction rows_desc as [| i rest IH]; intros solution Hbig; simpl in *.
  - by eexists.
  - apply Forall_cons in Hbig as [Hp Hrest].
    unfold back_row at 1. rewrite (big_enough_not_too_small _ Hp). simpl.
    by apply IH.
Qed.

Lemma gaussian_sequential_length (m : CppMatrix) x :
  gaussian_sequential m = Return x -> length x = rows m.
Proof.
  unfold gaussian_sequential.
  destruct (validate_augmented m); simpl; [| done].
  destruct (forward_elimination _ _ _); simpl; [| done].
  unfold back_substitution. intros H. apply back_rows_length in H.
  by rewrite length_replicate in H.
Qed.

Lemma gaussian_sequential_well_conditioned (m : CppMatrix) :
  well_formed m -> 1 <= rows m -> cols m = rows m + 1 -> well_conditioned m ->
  exists x, gaussian_sequential m = Return x.
Proof.
  intros Hwf Hrows Hcols Hwc.
  destruct (well_formed_fits m Hwf Hrows Hcols) as [Hfit _].
  unfold well_conditioned, pivots_encountered in Hwc.
  apply Forall_app in Hwc as [Hfw Hback].
  unfold gaussian_sequential. rewrite validate_augmented_ok by done. simpl.
  unfold forward_elimination. rewrite (forward_well_conditioned _ _ _ _ Hfw).
  simpl. unfold back_substitution. by apply back_rows_well_conditioned.
Qed.

Lemma solutions_match_same (xs : list double) : solutions_match xs xs = true.
Proof.
  unfold solutions_match. rewrite Nat.eqb_refl. simpl.
  induction xs as [| x xs IH]; simpl; [done |].
  unfold fabs in *. rewrite sub_self_within. simpl. exact IH.
Qed.

(** Below two rows the parallel entry point is the sequential one. *)
Lemma gaussian_parallel_small env (m : CppMatrix) max_processes :
  1 <= rows m -> cols m = rows m + 1 -> rows m < 2 ->
  gaussian_parallel env m max_processes = (gaussian_sequential m, fresh).
Proof.
  intros Hrows Hcols Hsmall.
  unfold gaussian_parallel, gaussian_parallel_body, bind, lift.
  rewrite validate_augmented_ok;
    [| done | done | replace (cols m) with 2 by lia; done].
  by rewrite (proj2 (Nat.ltb_lt _ _) Hsmall).
Qed.

(** With no failing system call the parallel engine returns what the
    sequential engine returns, for every shape it accepts. *)
Lemma gaussian_parallel_result env (m : CppMatrix) max_processes :
  fault_free env -> well_formed m ->
  1 <= rows m -> cols m = rows m + 1 ->
  (gaussian_parallel env m max_processes).1 = gaussian_sequential m.
Proof.
  intros Hff Hwf Hrows Hcols.
  destruct (le_lt_dec 2 (rows m)) as [Hbig | Hsmall].
  - by apply gaussian_parallel_run.
  - by rewrite gaussian_parallel_small.
Qed.

Lemma bind_unfold {A B} (m : M A) (k : A -> M B) w :
  bind m k w = match m w with
               | (Return a, w') => k a w'
               | (Throw e, w') => (Throw e, w')
               end.
Proof. reflexivity. Qed.

Lemma mmap_cases env total_bytes w :
  mmap env total_bytes w =
    (Return true,
     log (Mmap total_bytes)
         (set_shm (Some (replicate (total_bytes / sizeof_double) 0%float))
                  (tick w))) \/
  mmap env total_bytes w = (Return false, tick w).
Proof.
  unfold mmap, bind, syscall, modify, ret.
  destruct (fails env (clock w)); simpl; auto.
Qed.

(** Leaving the guarded scope unmaps the region, whatever the scope did. *)
Lemma guard_releases {A} bytes (scope : M A) w :
  shm (SharedMatrixGuard bytes scope w).2 = None /\
  last (trace (SharedMatrixGuard bytes scope w).2) = Some (Munmap bytes).
Proof.
  unfold SharedMatrixGuard. destruct (scope w) as [r w']. simpl.
  split; [done | apply last_snoc].
Qed.

(** The call ends either before anything was mapped, or by leaving the
    scope of the guard. *)
Lemma gaussian_parallel_cases env (m : CppMatrix) max_processes out :
  out = gaussian_parallel env m max_processes ->
  (shm out.2 = None /\ trace out.2 = []) \/
  (exists scope w, out = SharedMatrixGuard (region_bytes m) scope w).
Proof.
  intros Hout. unfold gaussian_parallel, gaussian_parallel_body in Hout.
  rewrite bind_unfold in Hout. unfold lift at 1 in Hout.
  destruct (validate_augmented m) as [[] | e]; [| left; by subst out].
  destruct (rows m <? 2); [left; by subst out |].
  cbv zeta in Hout. rewrite bind_unfold in Hout.
  fold (region_bytes m) in Hout.
  destruct (mmap_cases env (region_bytes m) fresh)
    as [E | E]; rewrite E in Hout; cbv beta iota delta [negb] in Hout.
  - right. eexists _, _. exact Hout.
  - left. by subst out.
Qed.

(** A failing read from a worker: the call throws past the teardown as
    well; the guard unmaps the region, the two workers stay behind. *)
Example worker_failure_path :
  let out := gaussian_parallel broken_pipe (fst make_predefined_matrix) 0 in
  out.1 = Throw (runtime_error "read from worker failed: Broken pipe") /\
  shm out.2 = None /\
  procs out.2 = [Ready; Ready] /\
  last (trace out.2) = Some (Munmap 96).
Proof. vm_compute. repeat split. Qed.

(** * The claims *)

(** C1.  For every augmented matrix with [rows >= 1], [cols = rows + 1]
    (and a buffer of [rows * cols] entries) whose pivots, in forward
    elimination and in back substitution, all have magnitude at least
    [1e-12], both engines succeed, both solutions have [rows] entries, and
    they agree within [1e-6] as the server compares them (no element with
    a difference above the tolerance) - they are in fact the same vector.
    This holds for every [max_workers], so for [0] and for [1 .. rows-1],
    whatever the schedule of the workers, provided no system call fails. *)
Theorem engines_agree env (m : CppMatrix) max_workers :
  fault_free env -> well_formed m ->
  1 <= rows m -> cols m = rows m + 1 ->
  well_conditioned m ->
  exists xs xp,
    gaussian_sequential m = Return xs /\
    (gaussian_parallel env m max_workers).1 = Return xp /\
    length xs = rows m /\ length xp = rows m /\
    solutions_match xp xs = true /\ xp = xs.
Proof.
  intros Hff Hwf Hrows Hcols Hwc.
  destruct (gaussian_sequential_well_conditioned m Hwf Hrows Hcols Hwc)
    as [xs Hxs].
  exists xs, xs.
  rewrite gaussian_parallel_result by done.
  pose proof (gaussian_sequential_length m xs Hxs) as Hlen.
  repeat split; try done. apply solutions_match_same.
Qed.

Lemma engines_agree_witness :
  exists xs xp,
    gaussian_sequential (fst make_predefined_matrix) = Return xs /\
    (gaussian_parallel calm (fst make_predefined_matrix) 2).1 = Return xp /\
    length xs = 3 /\ length xp = 3 /\
    solutions_match xp xs = true /\ xp = xs.
Proof.
  apply (engines_agree calm (fst make_predefined_matrix) 2).
  - intros k. reflexivity.
  - split; [reflexivity | vm_compute; reflexivity].
  - simpl. lia.
  - reflexivity.
  - unfold well_conditioned. vm_compute pivots_encountered.
    repeat (constructor; [vm_compute; reflexivity |]). constructor.
Defined.

(** C2, as the code has it.  When forward elimination meets a pivot of
    magnitude below [1e-12] (the two engines read the same pivots) and no
    system call fails, [gaussian_parallel] fails with [SingularMatrix] and
    the shared region is unmapped; every worker it spawned is still in its
    [Ready] loop: no [Exit] task was written, no process was waited for,
    no descriptor was closed. *)
Theorem singular_leaves_workers env (m : CppMatrix) max_workers e :
  fault_free env -> well_formed m ->
  2 <= rows m -> cols m = rows m + 1 ->
  forward_elimination (cols m) (rows m) (data m) = Throw e ->
  let out := gaussian_parallel env m max_workers in
  out.1 = Throw (runtime_error singular_what) /\
  is_SingularMatrix (runtime_error singular_what) = true /\
  shm out.2 = None /\
  procs out.2 = replicate (process_budget env max_workers (rows m)) Ready /\
  no_teardown out.2.
Proof.
  intros Hff Hwf Hrows Hcols Hfw out.
  destruct (gaussian_parallel_run env m max_workers Hff Hwf Hrows Hcols)
    as (Hres & Hshm & Hprocs).
  rewrite Hfw in Hprocs. destruct Hprocs as [Hprocs Hquiet].
  pose proof (forward_failure_is_singular _ _ _ _ _ Hfw) as ->.
  destruct (well_formed_fits m Hwf ltac:(lia) Hcols) as [Hfit _].
  subst out. split; [| by auto].
  rewrite Hres. unfold gaussian_sequential.
  rewrite validate_augmented_ok by (done || lia). simpl. by rewrite Hfw.
Qed.

Lemma singular_leaves_workers_witness :
  let out := gaussian_parallel calm zero_pivot 0 in
  out.1 = Throw (runtime_error singular_what) /\
  is_SingularMatrix (runtime_error singular_what) = true /\
  shm out.2 = None /\
  procs out.2 = replicate (process_budget calm 0 2) Ready /\
  no_teardown out.2.
Proof.
  apply (singular_leaves_workers calm zero_pivot 0
           (runtime_error singular_what)).
  - intros k. reflexivity.
  - split; [reflexivity | vm_compute; reflexivity].
  - simpl. lia.
  - reflexivity.
  - vm_compute. reflexivity.
Defined.

(** C2, as stated, fails: on a 2 x 3 system whose first pivot is zero the
    call fails with [SingularMatrix] while its only worker has neither been
    sent [Exit] nor been reaped. *)
Lemma singular_propagates_after_teardown_counterexample :
  let out := gaussian_parallel calm zero_pivot 0 in
  out.1 = Throw (runtime_error singular_what) /\
  procs out.2 = [Ready] /\
  ~ all_reaped out.2 /\
  ~ signalled out.2 0.
Proof.
  vm_compute. split; [reflexivity |]. split; [reflexivity |]. split.
  - intros H. inversion H as [| ? ? Hst _]. discriminate Hst.
  - intros (t & Hin & Hcmd).
    repeat (apply elem_of_cons in Hin as [Hin | Hin]; [discriminate Hin |]).
    by apply elem_of_nil in Hin.
Qed.

(** C3.  In the round of [gaussian_parallel] for pivot column [c] with
    [n - c - 1 > 0] rows left, the k-th range sent is
    [[c+1 + k*chunk, min(n, c+1 + (k+1)*chunk))] with
    [chunk = ceil(remaining / active)]; it starts strictly after the pivot
    row; a range is assigned to worker [k < active] exactly while its start
    is below [n]; two different ranges share no row; and the rows covered
    are exactly [c+1 .. n-1]. *)
Theorem round_ranges env max_workers n c :
  c + 1 < n ->
  let budget := process_budget env max_workers n in
  let remaining := n - c - 1 in
  let active := Nat.min budget remaining in
  let chunk := (remaining + active - 1) / active in
  let tasks := plan_round n budget c in
  chunk * active >= remaining /\ (chunk - 1) * active < remaining /\
  (forall k t, tasks !! k = Some t ->
     command t = Work /\ column t = c /\
     start_row t = c + 1 + k * chunk /\
     end_row t = Nat.min n (c + 1 + (k + 1) * chunk) /\
     c < start_row t /\ start_row t < end_row t) /\
  (forall k, k < length tasks <-> k < active /\ c + 1 + k * chunk < n) /\
  (forall i j ti tj r,
     i <> j -> tasks !! i = Some ti -> tasks !! j = Some tj ->
     ~ (start_row ti <= r < end_row ti /\ start_row tj <= r < end_row tj)) /\
  (forall r,
     (exists k t, tasks !! k = Some t /\ start_row t <= r < end_row t) <->
     c + 1 <= r < n).
Proof.
  intros Hc budget remaining active chunk tasks.
  assert (Hb : 1 <= budget) by (unfold budget, process_budget; lia).
  destruct (chunk_covers budget remaining Hb ltac:(unfold remaining; lia))
    as (Ha & Hchunk & Hcover & _).
  fold active in Ha, Hchunk, Hcover. fold chunk in Hchunk, Hcover.
  assert (Hceil : (chunk - 1) * active < remaining).
  { pose proof (Nat.div_mod_eq (remaining + active - 1) active) as Hdm.
    pose proof (Nat.mod_upper_bound (remaining + active - 1) active
                  ltac:(lia)) as Hmod.
    fold chunk in Hdm. nia. }
  assert (Hlook : forall k t, tasks !! k = Some t ->
            t = {| command := Work; column := c;
                   start_row := c + 1 + k * chunk;
                   end_row := Nat.min n (c + 1 + (k + 1) * chunk) |} /\
            c + 1 + k * chunk < n /\ k < active).
  { intros k t Hk. by apply plan_round_lookup in Hk. }
  assert (Hlen : forall k, k < length tasks <->
                           k < active /\ c + 1 + k * chunk < n).
  { intros k. unfold tasks, plan_round.
    rewrite assign_loop_length. simpl. unfold chunk, active, remaining. tauto. }
  split; [lia |]. split; [done |]. split; [| split; [done | split]].
  - intros k t Hk. apply Hlook in Hk as (-> & Hlt & Hka). simpl.
    repeat split; lia.
  - intros i j ti tj r Hij Hi Hj [Hri Hrj].
    apply Hlook in Hi as (-> & _ & _). apply Hlook in Hj as (-> & _ & _).
    simpl in *. destruct (Nat.lt_total i j) as [Hlt | [Heq | Hgt]]; [| done |]; nia.
  - intros r. split.
    + intros (k & t & Hk & Hr). apply Hlook in Hk as (-> & Hlt & Hka).
      simpl in Hr. lia.
    + intros Hr. set (k := (r - (c + 1)) / chunk).
      pose proof (Nat.div_mod_eq (r - (c + 1)) chunk) as Hdm.
      pose proof (Nat.mod_upper_bound (r - (c + 1)) chunk ltac:(lia)) as Hmod.
      fold k in Hdm.
      assert (Hstart : c + 1 + k * chunk <= r) by nia.
      assert (Hk : k < length tasks).
      { apply Hlen. split; [| lia]. unfold remaining in Hcover. nia. }
      destruct (lookup_lt_is_Some_2 tasks k Hk) as [t Ht].
      exists k, t. split; [done |].
      apply Hlook in Ht as (-> & _ & _). simpl. nia.
Qed.

Lemma round_ranges_witness :
  let tasks := plan_round 7 (process_budget calm 4 7) 1 in
  let chunk := 2 in
  2 * 4 >= 5 /\ (2 - 1) * 4 < 5 /\
  (forall k t, tasks !! k = Some t ->
     command t = Work /\ column t = 1 /\
     start_row t = 1 + 1 + k * chunk /\
     end_row t = Nat.min 7 (1 + 1 + (k + 1) * chunk) /\
     1 < start_row t /\ start_row t < end_row t) /\
  (forall k, k < length tasks <-> k < 4 /\ 1 + 1 + k * chunk < 7) /\
  (forall i j ti tj r,
     i <> j -> tasks !! i = Some ti -> tasks !! j = Some tj ->
     ~ (start_row ti <= r < end_row ti /\ start_row tj <= r < end_row tj)) /\
  (forall r,
     (exists k t, tasks !! k = Some t /\ start_row t <= r < end_row t) <->
     1 + 1 <= r < 7).
Proof.
  apply (round_ranges calm 4 7 1). lia.
Defined.

(** C4.  When [rows == 0] or [cols != rows + 1] (the source's test, in
    [std::size_t]; below [SIZE_MAX] rows it is the successor) both entry
    points fail with [InvalidShape], and the parallel one has by then made
    no system call: nothing mapped, nothing copied, no worker forked. *)
Theorem invalid_shape_fails_fast env (m : CppMatrix) max_workers :
  rows m = 0 \/ cols m <> to_size_t (Z.of_nat (rows m) + 1) ->
  exists e,
    is_InvalidShape e = true /\
    gaussian_sequential m = Throw e /\
    gaussian_parallel env m max_workers = (Throw e, fresh).
Proof.
  intros Hbad.
  unfold gaussian_sequential, gaussian_parallel, gaussian_parallel_body,
    bind, lift, validate_augmented.
  destruct (rows m =? 0) eqn:Erows; simpl.
  - eexists. split; [| split; reflexivity]. reflexivity.
  - apply Nat.eqb_neq in Erows. destruct Hbad as [H0 | Hcols]; [done |].
    rewrite (proj2 (Nat.eqb_neq _ _) Hcols). simpl.
    eexists. split; [| split; reflexivity]. reflexivity.
Qed.

Lemma invalid_shape_fails_fast_witness :
  exists e,
    is_InvalidShape e = true /\
    gaussian_sequential scenario_C = Throw e /\
    gaussian_parallel calm scenario_C 0 = (Throw e, fresh).
Proof.
  apply (invalid_shape_fails_fast calm scenario_C 0).
  right. vm_compute. lia.
Defined.

(** C5.  For a valid augmented matrix with at least two rows, when no
    system call fails, the number of workers forked is [max_workers] if
    that is positive and the number of online processors otherwise,
    clamped to at most [rows - 1] and at least [1]. *)
Theorem worker_count env (m : CppMatrix) max_workers :
  fault_free env -> well_formed m ->
  2 <= rows m -> cols m = rows m + 1 ->
  let requested :=
    if 0 <? max_workers then Z.of_nat max_workers else cpu_available env in
  Z.of_nat (length (procs (gaussian_parallel env m max_workers).2)) =
    Z.max 1 (Z.min requested (Z.of_nat (rows m) - 1)).
Proof.
  intros Hff Hwf Hrows Hcols requested.
  destruct (gaussian_parallel_run env m max_workers Hff Hwf Hrows Hcols)
    as (_ & _ & Hprocs).
  assert (Hlen : length (procs (gaussian_parallel env m max_workers).2) =
                 process_budget env max_workers (rows m)).
  { destruct (forward_elimination _ _ _).
    - by rewrite Hprocs, length_replicate.
    - destruct Hprocs as [-> _]. by rewrite length_replicate. }
  rewrite Hlen. unfold process_budget, requested.
  destruct (0 <? max_workers) eqn:Epos; [lia |].
  destruct (0 <? cpu_available env)%Z eqn:Ecpu; lia.
Qed.

Lemma worker_count_witness :
  Z.of_nat (length (procs (gaussian_parallel calm (fst make_predefined_matrix) 0).2)) =
    Z.max 1 (Z.min 4 (3 - 1)).
Proof.
  apply (worker_count calm (fst make_predefined_matrix) 0).
  - intros k. reflexivity.
  - split; [reflexivity | vm_compute; reflexivity].
  - simpl. lia.
  - reflexivity.
Defined.

(** C6.  For a valid augmented matrix with [n >= 2] rows, the call with
    [max_workers = 1] and the call with [max_workers = n - 1] have the
    same outcome, whatever the two schedules: the same solution, element
    for element the same binary64 value (or the same failure). *)
Theorem partition_count_irrelevant env1 env2 (m : CppMatrix) :
  fault_free env1 -> fault_free env2 -> well_formed m ->
  2 <= rows m -> cols m = rows m + 1 ->
  (gaussian_parallel env1 m 1).1 = (gaussian_parallel env2 m (rows m - 1)).1.
Proof.
  intros Hff1 Hff2 Hwf Hrows Hcols.
  rewrite !gaussian_parallel_result by (done || lia). done.
Qed.

Lemma partition_count_irrelevant_witness :
  (gaussian_parallel calm (fst make_predefined_matrix) 1).1 =
  (gaussian_parallel calm (fst make_predefined_matrix) (3 - 1)).1.
Proof.
  apply (partition_count_irrelevant calm calm (fst make_predefined_matrix)).
  - intros k. reflexivity.
  - intros k. reflexivity.
  - split; [reflexivity | vm_compute; reflexivity].
  - simpl. lia.
  - reflexivity.
Defined.

(** C7.  However the call ends - shape rejected, delegation, [mmap]
    failing, a worker or a system call failing, a singular pivot, normal
    return - the calling process holds no mapping afterwards, and if the
    region was mapped the last thing the call did was to unmap it. *)
Theorem region_always_released env (m : CppMatrix) max_workers :
  let out := gaussian_parallel env m max_workers in
  shm out.2 = None /\
  ((exists bytes, Mmap bytes ∈ trace out.2) ->
   last (trace out.2) = Some (Munmap (region_bytes m))).
Proof.
  intros out.
  destruct (gaussian_parallel_cases env m max_workers out eq_refl)
    as [[Hs Ht] | (scope & w & ->)].
  - split; [done |]. rewrite Ht.
    intros [b Hb]. by apply elem_of_nil in Hb.
  - destruct (guard_releases (region_bytes m) scope w) as [Hs Hl].
    split; [exact Hs |]. intros _. exact Hl.
Qed.

Lemma region_always_released_witness :
  last (trace (gaussian_parallel calm (fst make_predefined_matrix) 0).2) =
    Some (Munmap (region_bytes (fst make_predefined_matrix))).
Proof.
  apply (region_always_released calm (fst make_predefined_matrix) 0).
  exists 96. vm_compute. apply list_elem_of_here.
Defined.

(** C8.  A valid augmented matrix with fewer than two rows is handed to
    the sequential engine: the result is [gaussian_sequential]'s and the
    call has made no system call.  For [[5, 10]] both entry points return
    [[2.0]]. *)
Theorem small_system_delegates env max_workers :
  (forall m : CppMatrix,
     1 <= rows m -> cols m = rows m + 1 -> rows m < 2 ->
     gaussian_parallel env m max_workers = (gaussian_sequential m, fresh)) /\
  gaussian_sequential scenario_B = Return [2%float] /\
  gaussian_parallel env scenario_B max_workers = (Return [2%float], fresh).
Proof.
  split; [| split].
  - intros m. apply gaussian_parallel_small.
  - vm_compute. reflexivity.
  - rewrite gaussian_parallel_small by (simpl; lia). vm_compute. reflexivity.
Qed.

Lemma small_system_delegates_witness :
  gaussian_parallel calm scenario_B 3 = (gaussian_sequential scenario_B, fresh).
Proof.
  apply (proj1 (small_system_delegates calm 3) scenario_B); simpl; lia.
Defined.

(** C9.  On [[2,1,-1,8],[-3,-1,2,-11],[-2,1,2,-3]] both engines succeed
    (the parallel one whenever no system call fails, for every worker
    budget and schedule) and every element of either solution is within
    [1e-6] of [[2.0, 3.0, -1.0]]. *)
Theorem scenario_A env max_workers :
  fault_free env ->
  exists xs xp,
    gaussian_sequential (fst make_predefined_matrix) = Return xs /\
    (gaussian_parallel env (fst make_predefined_matrix) max_workers).1 = Return xp /\
    within_tolerance xs (snd make_predefined_matrix) = true /\
    within_tolerance xp (snd make_predefined_matrix) = true /\
    (max_err xs (snd make_predefined_matrix) <=? kTolerance)%float = true /\
    (max_err xp (snd make_predefined_matrix) <=? kTolerance)%float = true.
Proof.
  intros Hff. exists [2; 3; -1]%float, [2; 3; -1]%float.
  assert (Hseq : gaussian_sequential (fst make_predefined_matrix) =
                 Return [2; 3; -1]%float) by (vm_compute; reflexivity).
  split; [exact Hseq |]. split.
  - rewrite gaussian_parallel_result; [exact Hseq | done | | | reflexivity].
    + split; [reflexivity | vm_compute; reflexivity].
    + simpl. lia.
  - repeat split; vm_compute; reflexivity.
Qed.

Lemma scenario_A_witness :
  exists xs xp,
    gaussian_sequential (fst make_predefined_matrix) = Return xs /\
    (gaussian_parallel calm (fst make_predefined_matrix) 0).1 = Return xp /\
    within_tolerance xs (snd make_predefined_matrix) = true /\
    within_tolerance xp (snd make_predefined_matrix) = true /\
    (max_err xs (snd make_predefined_matrix) <=? kTolerance)%float = true /\
    (max_err xp (snd make_predefined_matrix) <=? kTolerance)%float = true.
Proof.
  apply (scenario_A calm 0). intros k. reflexivity.
Defined.

(** C10.  A worker in its [Ready] loop that reads a [Work] task with
    [start_row >= end_row] leaves the shared region as it was; it
    acknowledges with status [0] and stays [Ready] (the write of the
    acknowledgement succeeding). *)
Theorem empty_task_is_noop width (task : WorkerTask) (shared_data : list double) :
  command task = Work -> end_row task <= start_row task ->
  (forall ack_write_ok,
     it_shared (worker_iteration width (Some task) ack_write_ok shared_data)
       = shared_data) /\
  worker_iteration width (Some task) true shared_data =
    {| it_shared := shared_data;
       it_acks := [ {| status := 0 |} ];
       it_state := Ready |}.
Proof.
  intros Hcmd Hempty.
  assert (Hwork : worker_work width task shared_data = shared_data).
  { unfold worker_work. by rewrite (proj2 (Nat.ltb_ge _ _) Hempty). }
  unfold worker_iteration. rewrite Hcmd. simpl. rewrite Hwork.
  split; [| done]. by intros [].
Qed.

Lemma empty_task_is_noop_witness :
  (forall ack_write_ok,
     it_shared (worker_iteration 4
                  (Some {| command := Work; column := 0;
                           start_row := 2; end_row := 2 |})
                  ack_write_ok (data (fst make_predefined_matrix)))
       = data (fst make_predefined_matrix)) /\
  worker_iteration 4
    (Some {| command := Work; column := 0; start_row := 2; end_row := 2 |})
    true (data (fst make_predefined_matrix)) =
    {| it_shared := data (fst make_predefined_matrix);
       it_acks := [ {| status := 0 |} ];
       it_state := Ready |}.
Proof.
  apply (empty_task_is_noop 4
           {| command := Work; column := 0; start_row := 2; end_row := 2 |}
           (data (fst make_predefined_matrix))).
  - reflexivity.
  - simpl. lia.
Defined.

(** * Further properties of the engines *)

(** ** What forward elimination leaves in place *)

Lemma axpy_fold_writes width col row factor ks : forall d i,
  (forall k, k ∈ ks -> i <> row * width + k) ->
  fold_left (axpy width col row factor) ks d !!! i = d !!! i.
Proof.
  induction ks as [| k ks IH]; intros d i Hout; simpl; [done |].
  rewrite IH by (intros k' Hk'; apply Hout; by right).
  unfold axpy. apply list_lookup_total_insert_ne.
  apply not_eq_sym, Hout. by left.
Qed.

Lemma eliminate_row_writes width col pivot d row i :
  (forall k, col <= k < width -> i <> row * width + k) ->
  eliminate_row width col pivot d row !!! i = d !!! i.
Proof.
  intros Hout. unfold eliminate_row. apply axpy_fold_writes.
  intros k Hk. apply elem_of_seq in Hk. apply Hout. lia.
Qed.

Lemma eliminate_rows_writes width col pivot first last d i :
  (forall r k, first <= r < last -> col <= k < width -> i <> r * width + k) ->
  eliminate_rows width col pivot first last d !!! i = d !!! i.
Proof.
  intros Hout. unfold eliminate_rows.
  assert (Hrs : forall r, r ∈ seq first (last - first) -> first <= r < last).
  { intros r Hr. apply elem_of_seq in Hr. lia. }
  revert d Hrs. generalize (seq first (last - first)) as rs.
  induction rs as [| r rs IH]; intros d Hrs; simpl; [done |].
  rewrite IH by (intros r' Hr'; apply Hrs; by right).
  apply eliminate_row_writes. intros k Hk. apply Hout; [| done].
  apply Hrs. by left.
Qed.

Lemma eliminate_rows_length width col pivot first last d :
  length (eliminate_rows width col pivot first last d) = length d.
Proof.
  unfold eliminate_rows. generalize (seq first (last - first)) as rs.
  intros rs. revert d. induction rs as [| r rs IH]; intros d; simpl; [done |].
  rewrite IH. unfold eliminate_row.
  generalize (seq col (width - col)) as ks.
  generalize (d !!! (r * width + col)%nat / pivot)%float as factor.
  intros factor ks. revert d. induction ks as [| k ks IHk]; intros d; simpl;
    [done |].
  rewrite IHk. unfold axpy. apply length_insert.
Qed.

(** X1.  Forward elimination for pivot column [col] rewrites only the cells
    right of and below the pivot (rows [col+1 .. n-1], columns
    [col .. width-1]); the pivot row, the rows above it and every column
    left of the pivot keep their contents. *)
Theorem forward_column_writes width n d col d' i :
  forward_column width n d col = Return d' ->
  (forall r k, col < r < n -> col <= k < width -> i <> r * width + k) ->
  d' !!! i = d !!! i /\ length d' = length d.
Proof.
  unfold forward_column. destruct (too_small _); [done |].
  intros [= <-] Hout. split.
  - apply eliminate_rows_writes. intros r k Hr Hk. apply Hout; lia.
  - apply eliminate_rows_length.
Qed.

Lemma forward_column_writes_witness :
  [2; 1; -1; 8; 0; 0.5; 0.5; 1; 0; 2; 1; 5]%float !!! 3 = (8)%float /\
  length [2; 1; -1; 8; 0; 0.5; 0.5; 1; 0; 2; 1; 5]%float = 12.
Proof.
  apply (forward_column_writes 4 3 (data (fst make_predefined_matrix)) 0
           [2; 1; -1; 8; 0; 0.5; 0.5; 1; 0; 2; 1; 5]%float 3).
  - vm_compute. reflexivity.
  - intros r k Hr Hk. lia.
Defined.

(** X2.  A worker's task rewrites only cells of its rows [start_row ..
    end_row-1], in the columns [column .. width-1]; whatever the task, the
    rest of the region and its size are untouched. *)
Theorem worker_work_writes width (task : WorkerTask) d i :
  (forall r k, start_row task <= r < end_row task ->
               column task <= k < width -> i <> r * width + k) ->
  worker_work width task d !!! i = d !!! i /\
  length (worker_work width task d) = length d.
Proof.
  intros Hout. unfold worker_work. destruct (_ <? _); [| done]. split.
  - by apply eliminate_rows_writes.
  - apply eliminate_rows_length.
Qed.

Lemma worker_work_writes_witness :
  worker_work 4 {| command := Work; column := 0; start_row := 1; end_row := 2 |}
    (data (fst make_predefined_matrix)) !!! 9 =
    data (fst make_predefined_matrix) !!! 9 /\
  length (worker_work 4
            {| command := Work; column := 0; start_row := 1; end_row := 2 |}
            (data (fst make_predefined_matrix))) = 12.
Proof.
  apply (worker_work_writes 4
           {| command := Work; column := 0; start_row := 1; end_row := 2 |}
           (data (fst make_predefined_matrix)) 9).
  simpl. intros r k Hr Hk. lia.
Defined.

(** ** The second pivot test *)

(** After forward elimination every diagonal entry has passed the test. *)
Lemma forward_diagonal width n : forall m a d d',
  a + m <= n -> n <= width ->
  foldM (forward_column width n) (seq a m) d = Return d' ->
  (forall i, a <= i < a + m -> too_small (d' !!! (i * width + i)) = false) /\
  (forall r k, r < a -> k < width -> d' !!! (r * width + k) = d !!! (r * width + k)).
Proof.
  induction m as [| m IH]; intros a d d' Ham Hw; simpl.
  - intros [= <-]. split; [lia | done].
  - destruct (forward_column width n d a) as [d1 |] eqn:Ecol; simpl; [| done].
    intros Hrest. apply IH in Hrest as [Hdiag Hrows]; [| lia | done].
    assert (Hkeep : forall r k, r <= a -> k < width ->
              d1 !!! (r * width + k) = d !!! (r * width + k)).
    { intros r k Hr Hk.
      apply (forward_column_writes width n d a d1); [done |].
      intros r' k' Hr' Hk'. nia. }
    split.
    + intros i Hi. destruct (decide (i = a)) as [-> | Hne].
      * rewrite Hrows by lia. rewrite Hkeep by lia.
        unfold forward_column in Ecol. by destruct (too_small _).
      * apply Hdiag. lia.
    + intros r k Hr Hk. rewrite Hrows by lia. apply Hkeep; lia.
Qed.

Lemma back_rows_succeed width n d rows_desc : forall solution,
  Forall (fun i => too_small (d !!! (i * width + i)) = false) rows_desc ->
  exists x, foldM (back_row width n d) rows_desc solution = Return x /\
            length x = length solution.
Proof.
  induction rows_desc as [| i rest IH]; intros solution Hok; simpl.
  - by eexists.
  - apply Forall_cons in Hok as [Hi Hrest]. unfold back_row at 1.
    rewrite Hi. simpl.
    match goal with
    | |- context [foldM _ rest ?s] => destruct (IH s Hrest) as (x & Hx & Hlen)
    end.
    exists x. split; [exact Hx |]. by rewrite Hlen, length_insert.
Qed.

(** X3.  The pivot test of back substitution never fires after a successful
    forward elimination: the diagonal it reads is the one forward
    elimination tested.  So the sequential engine can fail with
    [SingularMatrix] only in the forward phase. *)
Theorem back_substitution_after_forward width n d d' :
  n <= width ->
  forward_elimination width n d = Return d' ->
  exists x, back_substitution width n d' = Return x /\ length x = n.
Proof.
  intros Hw Hfw.
  destruct (forward_diagonal width n n 0 d d' ltac:(lia) Hw Hfw) as [Hdiag _].
  destruct (back_rows_succeed width n d' (rev (seq 0 n)) (replicate n 0%float))
    as (x & Hx & Hlen).
  - apply Forall_forall. intros i Hi.
    apply list_elem_of_In, in_rev, list_elem_of_In, elem_of_seq in Hi.
    apply Hdiag. lia.
  - exists x. split; [exact Hx |]. by rewrite Hlen, length_replicate.
Qed.

Lemma back_substitution_after_forward_witness :
  exists x,
    back_substitution 4 3 [2; 1; -1; 8; 0; 0.5; 0.5; 1; 0; 0; -1; 1]%float
      = Return x /\ length x = 3.
Proof.
  apply (back_substitution_after_forward 4 3 (data (fst make_predefined_matrix))).
  - lia.
  - vm_compute. reflexivity.
Defined.


(** ** What back substitution reads *)

Lemma back_row_reads width n d d' solution i :
  i < n -> n <= width ->
  (forall j, i <= j < width -> d !!! (i * width + j) = d' !!! (i * width + j)) ->
  back_row width n d solution i = back_row width n d' solution i.
Proof.
  intros Hi Hw Hagree. unfold back_row.
  rewrite (Hagree i) by lia. rewrite (Hagree (width - 1)) by lia.
  assert (Hrhs : forall js acc,
             Forall (fun j => i <= j < width) js ->
             fold_left (fun rhs j =>
                          let a := d !!! (i * width + j) in
                          let x := solution !!! j in (rhs - a * x)%float) js acc =
             fold_left (fun rhs j =>
                          let a := d' !!! (i * width + j) in
                          let x := solution !!! j in (rhs - a * x)%float) js acc).
  { induction js as [| j js IH]; intros acc Hjs; simpl; [done |].
    apply Forall_cons in Hjs as [Hj Hjs]. rewrite (Hagree j) by done.
    by apply IH. }
  rewrite Hrhs; [done |].
  apply Forall_forall. intros j Hj. apply elem_of_seq in Hj. lia.
Qed.

(** X5.  Back substitution reads the diagonal, what is right of it and the
    right-hand side, nothing below the diagonal: two regions that agree on
    and above the diagonal give the same outcome. *)
Theorem back_substitution_reads_upper width n d d' :
  n <= width ->
  (forall i j, i < n -> i <= j < width ->
     d !!! (i * width + j) = d' !!! (i * width + j)) ->
  back_substitution width n d = back_substitution width n d'.
Proof.
  intros Hw Hagree. unfold back_substitution.
  assert (Hrows : Forall (fun i => i < n) (rev (seq 0 n))).
  { apply Forall_forall. intros i Hi.
    apply list_elem_of_In, in_rev, list_elem_of_In, elem_of_seq in Hi. lia. }
  revert Hrows. generalize (replicate n 0%float).
  induction (rev (seq 0 n)) as [| i rest IH]; intros s Hrows; simpl; [done |].
  apply Forall_cons in Hrows as [Hi Hrest].
  rewrite (back_row_reads width n d d' s i Hi Hw) by (intros j Hj; by apply Hagree).
  destruct (back_row width n d' s i); simpl; [by apply IH | done].
Qed.

Lemma back_substitution_reads_upper_witness :
  back_substitution 4 3 [2; 1; -1; 8; 0; 0.5; 0.5; 1; 0; 0; -1; 1]%float =
  back_substitution 4 3 [2; 1; -1; 8; 7; 0.5; 0.5; 1; 7; 7; -1; 1]%float.
Proof.
  apply back_substitution_reads_upper; [lia |].
  intros i j Hi Hj.
  destruct i as [| [| [| i]]]; [| | | lia];
    destruct j as [| [| [| [| j]]]]; try lia; reflexivity.
Defined.

(** ** One equation *)

(** X6.  A single equation [a x = b] is solved as [x = b / a] by both entry
    points, unless [|a| < 1e-12]. *)
Theorem single_equation env max_workers (a b : double) :
  let m := {| rows := 1; cols := 2; data := [a; b] |} in
  gaussian_sequential m =
    (if too_small a then Throw (runtime_error singular_what)
     else Return [(b / a)%float]) /\
  gaussian_parallel env m max_workers = (gaussian_sequential m, fresh).
Proof.
  intros m. split.
  - unfold gaussian_sequential, m.
    rewrite validate_augmented_ok by (simpl; lia). simpl.
    unfold forward_elimination, forward_column. simpl.
    change ([a; b] !!! 0) with a.
    destruct (too_small a) eqn:Ea; simpl; [done |].
    unfold back_substitution, back_row. simpl.
    change ([a; b] !!! 0) with a. rewrite Ea. done.
  - apply gaussian_parallel_small; simpl; lia.
Qed.

(** ** Rounds stay within the pool *)

Lemma assign_loop_bound n c chunk : forall todo k,
  length (assign_loop n c chunk todo k) <= todo.
Proof.
  induction todo as [| todo IH]; intros k; simpl; [done |].
  destruct (n <=? _); simpl; [lia |]. specialize (IH (S k)). lia.
Qed.

(** X7.  A round never addresses a worker that was not spawned and never sends
    more tasks than there are rows left; once the last pivot column is
    reached it sends nothing. *)
Theorem round_within_pool n budget c :
  length (plan_round n budget c) <= budget /\
  length (plan_round n budget c) <= n - c - 1.
Proof.
  unfold plan_round.
  pose proof (assign_loop_bound n c
                ((n - c - 1 + Nat.min budget (n - c - 1) - 1) /
                 Nat.min budget (n - c - 1))
                (Nat.min budget (n - c - 1)) 0).
  lia.
Qed.

(** ** Runs that return, whatever the environment *)

Lemma returns_as_refl {A} (m : M A) : returns_as m m.
Proof. by intros w a w' E. Qed.

Lemma returns_as_bind {A B} (m1 m2 : M A) (k1 k2 : A -> M B) :
  returns_as m1 m2 -> (forall a, returns_as (k1 a) (k2 a)) ->
  returns_as (bind m1 k1) (bind m2 k2).
Proof.
  intros Hm Hk w b w' E. unfold bind in *.
  destruct (m1 w) as [[a | e] w1] eqn:E1; [| done].
  rewrite (Hm _ _ _ E1). by apply Hk.
Qed.

Lemma returns_as_for_each {A} (l : list A) (body1 body2 : A -> M unit) :
  (forall x, returns_as (body1 x) (body2 x)) ->
  returns_as (for_each l body1) (for_each l body2).
Proof.
  intros Hbody. induction l as [| x l IH]; simpl; [apply returns_as_refl |].
  apply returns_as_bind; [apply Hbody | intros _; apply IH].
Qed.

(** A system call whose failure is turned into an exception: when the
    whole returns, the call had succeeded. *)
Lemma returns_as_checked {A} env e (k1 k2 : M A) :
  returns_as k1 k2 ->
  returns_as (bind (syscall env) (fun ok => if negb ok then throw e else k1))
             (bind (syscall (calmed env))
                   (fun ok => if negb ok then throw e else k2)).
Proof.
  intros Hk w a w' E. unfold bind, syscall in *. simpl in *.
  destruct (fails env (clock w)); simpl in E; [done | by apply Hk].
Qed.

Lemma returns_as_mapped {A} env bytes e (k1 k2 : M A) :
  returns_as k1 k2 ->
  returns_as (bind (mmap env bytes) (fun mapped => if negb mapped then throw e else k1))
             (bind (mmap (calmed env) bytes)
                   (fun mapped => if negb mapped then throw e else k2)).
Proof.
  intros Hk w a w' E. rewrite bind_unfold in *.
  destruct (mmap_cases env bytes w) as [Em | Em]; rewrite Em in E;
    simpl in E; [| done].
  destruct (mmap_cases (calmed env) bytes w) as [Ec | Ec]; rewrite Ec; simpl.
  - by apply Hk.
  - unfold mmap, bind, syscall in Ec. simpl in Ec. done.
Qed.

Lemma returns_as_guard {A} bytes (scope1 scope2 : M A) :
  returns_as scope1 scope2 ->
  returns_as (SharedMatrixGuard bytes scope1) (SharedMatrixGuard bytes scope2).
Proof.
  intros Hs w a w' E. unfold SharedMatrixGuard in *.
  destruct (scope1 w) as [r w1] eqn:E1. injection E as -> <-.
  by rewrite (Hs _ _ _ E1).
Qed.

Lemma spawn_worker_returns env :
  returns_as (spawn_worker env) (spawn_worker (calmed env)).
Proof.
  unfold spawn_worker. do 3 apply returns_as_checked. apply returns_as_refl.
Qed.

Lemma send_task_returns env idx cmd col start end_ :
  returns_as (send_task env idx cmd col start end_)
             (send_task (calmed env) idx cmd col start end_).
Proof. unfold send_task. apply returns_as_checked, returns_as_refl. Qed.

Lemma wait_ack_returns env idx :
  returns_as (wait_ack env idx) (wait_ack (calmed env) idx).
Proof. unfold wait_ack. apply returns_as_checked, returns_as_refl. Qed.

Lemma reap_returns env idx :
  returns_as (reap env idx) (reap (calmed env) idx).
Proof. unfold reap. apply returns_as_checked, returns_as_refl. Qed.

Lemma column_round_returns env width n budget col :
  returns_as (column_round env width n budget col)
             (column_round (calmed env) width n budget col).
Proof.
  unfold column_round. apply returns_as_bind; [apply returns_as_refl |].
  intros d. destruct (too_small _); [apply returns_as_refl |].
  destruct (_ =? 0); [apply returns_as_refl |].
  apply returns_as_bind.
  { apply returns_as_for_each. intros it. apply send_task_returns. }
  intros _. apply returns_as_bind; [apply returns_as_refl |].
  intros _. apply returns_as_for_each. intros idx. apply wait_ack_returns.
Qed.

Lemma gaussian_parallel_body_returns env m max_processes :
  returns_as (gaussian_parallel_body env m max_processes)
             (gaussian_parallel_body (calmed env) m max_processes).
Proof.
  unfold gaussian_parallel_body.
  apply returns_as_bind; [apply returns_as_refl |]. intros _.
  destruct (rows m <? 2); [apply returns_as_refl |].
  apply returns_as_mapped, returns_as_guard.
  apply returns_as_bind; [apply returns_as_refl |]. intros _.
  apply returns_as_bind.
  { apply returns_as_for_each. intros _. apply spawn_worker_returns. }
  intros _. apply returns_as_bind.
  { apply returns_as_for_each. intros col. apply column_round_returns. }
  intros _. apply returns_as_bind; [apply returns_as_refl |]. intros size.
  apply returns_as_bind.
  { apply returns_as_for_each. intros idx. unfold send_exit.
    apply returns_as_bind; [apply send_task_returns | intros _; apply returns_as_refl]. }
  intros _. apply returns_as_bind.
  { apply returns_as_for_each. intros idx. apply wait_ack_returns. }
  intros _. apply returns_as_bind.
  { apply returns_as_for_each. intros idx. apply reap_returns. }
  intros _. apply returns_as_refl.
Qed.

Lemma calmed_fault_free env : fault_free (calmed env).
Proof. by intros k. Qed.

(** X8.  Whatever the environment does, a call that returns has returned the
    sequential engine's solution, one value per row, has unmapped the
    region and has collected every child it forked. *)
Theorem returned_run_is_clean env (m : CppMatrix) max_workers x w :
  well_formed m -> cols m = rows m + 1 ->
  gaussian_parallel env m max_workers = (Return x, w) ->
  gaussian_sequential m = Return x /\ length x = rows m /\
  shm w = None /\ all_reaped w.
Proof.
  intros Hwf Hcols Hrun.
  apply gaussian_parallel_body_returns in Hrun.
  change (gaussian_parallel (calmed env) m max_workers = (Return x, w)) in Hrun.
  assert (Hrows : 1 <= rows m).
  { destruct (rows m) eqn:E; [| lia].
    unfold gaussian_parallel, gaussian_parallel_body, bind, lift,
      validate_augmented in Hrun. rewrite E in Hrun. done. }
  assert (Hseq : gaussian_sequential m = Return x).
  { rewrite <- (gaussian_parallel_result (calmed env) m max_workers
                  (calmed_fault_free env) Hwf Hrows Hcols).
    by rewrite Hrun. }
  split; [done |]. split; [by apply gaussian_sequential_length |].
  destruct (le_lt_dec 2 (rows m)) as [Hbig | Hsmall].
  - destruct (gaussian_parallel_run (calmed env) m max_workers
                (calmed_fault_free env) Hwf Hbig Hcols) as (_ & Hshm & Hprocs).
    rewrite Hrun in Hshm, Hprocs. simpl in Hshm, Hprocs.
    split; [done |].
    unfold gaussian_sequential in Hseq.
    destruct (validate_augmented m); [| done]. simpl in Hseq.
    destruct (forward_elimination _ _ _); [| done].
    unfold all_reaped. rewrite Hprocs. by apply Forall_replicate.
  - rewrite gaussian_parallel_small in Hrun by done.
    injection Hrun as _ <-. split; [done | constructor].
Qed.

Lemma returned_run_is_clean_witness :
  let env := {| cpu_available := 2; fails := fun k => 40 <=? k;
                schedule := fun _ => [0; 1; 1]; strerror := "EIO" |} in
  let m := fst make_predefined_matrix in
  let w := snd (gaussian_parallel env m 0) in
  gaussian_sequential m = Return [2; 3; -1]%float /\
  length [2; 3; -1]%float = rows m /\ shm w = None /\ all_reaped w.
Proof.
  intros env m w.
  apply (returned_run_is_clean env m 0 [2; 3; -1]%float w).
  - split; [reflexivity | vm_compute; reflexivity].
  - reflexivity.
  - vm_compute. reflexivity.
Defined.

(** ** The pool never exceeds the budget *)

Lemma keeps_pool_bind {A B} (m : M A) (k : A -> M B) :
  keeps_pool m -> (forall a, keeps_pool (k a)) -> keeps_pool (bind m k).
Proof.
  intros Hm Hk w. unfold bind. specialize (Hm w).
  destruct (m w) as [[a | e] w1]; simpl in *; [| done].
  by rewrite Hk.
Qed.

Lemma keeps_pool_for_each {A} (l : list A) (body : A -> M unit) :
  (forall x, keeps_pool (body x)) -> keeps_pool (for_each l body).
Proof.
  intros Hbody. induction l as [| x l IH]; simpl; [by intros w |].
  apply keeps_pool_bind; [apply Hbody | intros _; apply IH].
Qed.

Lemma keeps_pool_checked {A} env e (k : M A) :
  keeps_pool k ->
  keeps_pool (bind (syscall env) (fun ok => if negb ok then throw e else k)).
Proof.
  intros Hk. apply keeps_pool_bind; [by intros w |].
  intros ok. destruct ok; simpl; [done | by intros w].
Qed.

Lemma keeps_pool_send_task env idx cmd col start end_ :
  keeps_pool (send_task env idx cmd col start end_).
Proof. unfold send_task. apply keeps_pool_checked. by intros w. Qed.

Lemma keeps_pool_wait_ack env idx : keeps_pool (wait_ack env idx).
Proof. unfold wait_ack. apply keeps_pool_checked. by intros w. Qed.

Lemma keeps_pool_send_exit env width idx : keeps_pool (send_exit env width idx).
Proof.
  unfold send_exit. apply keeps_pool_bind; [apply keeps_pool_send_task |].
  intros _ w. unfold worker_reacts, modify. simpl.
  destruct (procs w !! idx) as [[| |] |]; simpl; try done.
  by rewrite length_insert.
Qed.

Lemma keeps_pool_reap env idx : keeps_pool (reap env idx).
Proof.
  unfold reap. apply keeps_pool_checked.
  apply keeps_pool_bind; [by intros w |].
  intros [[| code |] |]; try (by intros w).
  apply keeps_pool_bind.
  - intros w. unfold modify. simpl. by rewrite length_insert.
  - intros _. destruct (negb _); by intros w.
Qed.

Lemma keeps_pool_column_round env width n budget col :
  keeps_pool (column_round env width n budget col).
Proof.
  unfold column_round. apply keeps_pool_bind; [by intros w |].
  intros d. destruct (too_small _); [by intros w |].
  destruct (_ =? 0); [by intros w |].
  apply keeps_pool_bind.
  { apply keeps_pool_for_each. intros it. apply keeps_pool_send_task. }
  intros _. apply keeps_pool_bind; [by intros w |].
  intros _. apply keeps_pool_for_each. intros idx. apply keeps_pool_wait_ack.
Qed.

Lemma spawn_worker_pool env w :
  length (procs (spawn_worker env w).2) <= S (length (procs w)).
Proof.
  unfold spawn_worker, bind, syscall, modify, throw. simpl.
  repeat (match goal with |- context [fails env ?c] => destruct (fails env c) end;
          simpl; [lia |]).
  rewrite length_app. simpl. lia.
Qed.

Lemma spawn_loop_pool env : forall (l : list nat) w,
  length (procs (for_each l (fun _ => spawn_worker env) w).2) <=
  length l + length (procs w).
Proof.
  induction l as [| x l IH]; intros w; simpl; [done |].
  unfold bind. pose proof (spawn_worker_pool env w) as Hone.
  destruct (spawn_worker env w) as [[[] | e] w1]; simpl in *.
  - specialize (IH w1). lia.
  - lia.
Qed.

(** X9.  In every run, failing ones included, the call forks at most
    [process_budget] children. *)
Theorem pool_within_budget env (m : CppMatrix) max_workers :
  length (procs (gaussian_parallel env m max_workers).2) <=
  process_budget env max_workers (rows m).
Proof.
  unfold gaussian_parallel, gaussian_parallel_body.
  rewrite bind_unfold. unfold lift at 1.
  destruct (validate_augmented m) as [[] | e]; [| simpl; lia].
  destruct (rows m <? 2); [simpl; lia |].
  cbv zeta. rewrite bind_unfold.
  destruct (mmap_cases env (region_bytes m) fresh) as [E | E];
    fold (region_bytes m); rewrite E; cbv beta iota delta [negb];
    [| simpl; lia].
  unfold SharedMatrixGuard.
  match goal with |- context [bind ?a ?k ?w] =>
    destruct (bind a k w) as [r w'] eqn:Escope end.
  simpl. revert Escope. rewrite bind_unfold. unfold std_copy, modify at 1.
  rewrite bind_unfold.
  match goal with |- context [for_each ?l ?b ?w] =>
    pose proof (spawn_loop_pool env l w) as Hspawn;
    destruct (for_each l b w) as [[[] | e] w1] eqn:Espawn end.
  2: { intros [= <- <-]. rewrite length_seq in Hspawn. simpl in *. lia. }
  rewrite length_seq in Hspawn. simpl in Hspawn.
  intros Erest.
  match type of Erest with ?rest w1 = _ =>
    assert (Hkeep : keeps_pool rest) end.
  { apply keeps_pool_bind.
    { apply keeps_pool_for_each. intros col. apply keeps_pool_column_round. }
    intros _. apply keeps_pool_bind; [by intros w |]. intros size.
    apply keeps_pool_bind.
    { apply keeps_pool_for_each. intros idx. apply keeps_pool_send_exit. }
    intros _. apply keeps_pool_bind.
    { apply keeps_pool_for_each. intros idx. apply keeps_pool_wait_ack. }
    intros _. apply keeps_pool_bind.
    { apply keeps_pool_for_each. intros idx. apply keeps_pool_reap. }
    intros _. apply keeps_pool_bind; [by intros w |]. intros d.
    by intros w. }
  specialize (Hkeep w1). rewrite Erest in Hkeep. simpl in Hkeep. lia.
Qed.

(** ** Calls that fail while the pool is built *)

(** X10.  When [mmap] fails the call throws at once: nothing is mapped, nothing
    forked, and no other system call is made. *)
Theorem mmap_failure env (m : CppMatrix) max_workers :
  2 <= rows m -> cols m = rows m + 1 -> (Z.of_nat (cols m) < 2 ^ 64)%Z ->
  fails env 0 = true ->
  gaussian_parallel env m max_workers =
    (Throw (runtime_error (String.append "mmap failed: " (strerror env))),
     tick fresh).
Proof.
  intros Hrows Hcols Hfit Hfail.
  unfold gaussian_parallel, gaussian_parallel_body.
  rewrite validate_augmented_ok by (done || lia).
  rewrite bind_unfold. unfold lift at 1.
  rewrite (proj2 (Nat.ltb_ge _ _)) by lia.
  cbv zeta. rewrite bind_unfold.
  unfold mmap. rewrite bind_unfold. unfold syscall at 1. simpl.
  by rewrite Hfail.
Qed.

Lemma mmap_failure_witness :
  gaussian_parallel
    {| cpu_available := 4; fails := fun k => k =? 0;
       schedule := fun _ => []; strerror := "Cannot allocate memory" |}
    (fst make_predefined_matrix) 0 =
  (Throw (runtime_error "mmap failed: Cannot allocate memory"), tick fresh).
Proof.
  apply (mmap_failure
           {| cpu_available := 4; fails := fun k => k =? 0;
              schedule := fun _ => []; strerror := "Cannot allocate memory" |}
           (fst make_predefined_matrix) 0); simpl; (lia || reflexivity).
Defined.

Lemma spawn_worker_returns_at env w :
  fails env (clock w) = false -> fails env (S (clock w)) = false ->
  fails env (S (S (clock w))) = false ->
  spawn_worker env w =
    (Return tt,
     log (Fork (length (procs w)))
         (set_procs (procs w ++ [Ready]) (tick (tick (tick w))))).
Proof.
  intros H0 H1 H2. unfold spawn_worker, bind, syscall, modify, throw. simpl.
  rewrite H0. simpl. rewrite H1. simpl. by rewrite H2.
Qed.

Lemma spawn_worker_throws_at env w r :
  r < 3 -> (forall j, j < r -> fails env (clock w + j) = false) ->
  fails env (clock w + r) = true ->
  exists w', spawn_worker env w = (Throw (spawn_failure env r), w') /\
             procs w' = procs w /\ shm w' = shm w /\ trace w' = trace w.
Proof.
  intros Hr Hbefore Hfail.
  unfold spawn_worker, spawn_failure, bind, syscall, modify, throw. simpl.
  destruct r as [| [| [| r]]]; [| | | lia].
  - rewrite Nat.add_0_r in Hfail. rewrite Hfail. simpl. by eexists.
  - pose proof (Hbefore 0 ltac:(lia)) as H0. rewrite Nat.add_0_r in H0.
    rewrite H0. simpl. rewrite Nat.add_1_r in Hfail. rewrite Hfail. simpl.
    by eexists.
  - pose proof (Hbefore 0 ltac:(lia)) as H0. rewrite Nat.add_0_r in H0.
    pose proof (Hbefore 1 ltac:(lia)) as H1. rewrite Nat.add_1_r in H1.
    rewrite H0. simpl. rewrite H1. simpl.
    replace (clock w + 2) with (S (S (clock w))) in Hfail by lia.
    rewrite Hfail. simpl. by eexists.
Qed.

Lemma spawn_loop_fails env r : forall i (l : list nat) w,
  i < length l -> r < 3 ->
  (forall c, clock w <= c < clock w + 3 * i + r -> fails env c = false) ->
  fails env (clock w + 3 * i + r) = true ->
  exists w',
    for_each l (fun _ => spawn_worker env) w = (Throw (spawn_failure env r), w') /\
    procs w' = procs w ++ replicate i Ready /\ shm w' = shm w /\
    (no_teardown w -> no_teardown w').
Proof.
  induction i as [| i IH]; intros l w Hl Hr Hbefore Hfail;
    (destruct l as [| x l]; [simpl in Hl; lia |]); simpl; rewrite bind_unfold.
  - destruct (spawn_worker_throws_at env w r Hr) as (w' & -> & Hp & Hs & Ht).
    { intros j Hj. apply Hbefore. lia. }
    { by replace (clock w + r) with (clock w + 3 * 0 + r) by lia. }
    exists w'. split; [done |]. split; [by rewrite Hp, app_nil_r |].
    split; [done |]. unfold no_teardown. by rewrite Ht.
  - rewrite spawn_worker_returns_at by (apply Hbefore; lia).
    destruct (IH l (log (Fork (length (procs w)))
                      (set_procs (procs w ++ [Ready]) (tick (tick (tick w))))))
      as (w' & -> & Hp & Hs & Ht).
    { simpl in Hl. lia. }
    { done. }
    { simpl. intros c Hc. apply Hbefore. lia. }
    { simpl. rewrite <- Hfail. f_equal. lia. }
    exists w'. split; [done |]. simpl in Hp, Hs.
    split; [by rewrite Hp, <- app_assoc |]. split; [done |].
    intros Hw. apply Ht. unfold no_teardown in *. simpl.
    apply Forall_app. split; [done | by repeat constructor].
Qed.

(** X11.  When a [pipe] or the [fork] for worker [i] fails, the call throws the
    matching exception and unmaps the region, and the [i] workers forked
    before it are left in their loop: no [Exit] task is sent, no
    [waitpid] made. *)
Theorem failed_spawn_leaves_workers env (m : CppMatrix) max_workers i r :
  well_formed m -> 2 <= rows m -> cols m = rows m + 1 ->
  i < process_budget env max_workers (rows m) -> r < 3 ->
  (forall c, c < 1 + 3 * i + r -> fails env c = false) ->
  fails env (1 + 3 * i + r) = true ->
  let out := gaussian_parallel env m max_workers in
  out.1 = Throw (spawn_failure env r) /\
  procs out.2 = replicate i Ready /\
  shm out.2 = None /\ no_teardown out.2.
Proof.
  intros Hwf Hrows Hcols Hi Hr Hbefore Hfail out.
  destruct (well_formed_fits m Hwf ltac:(lia) Hcols) as [Hfit _].
  assert (Hrun : exists w',
             out = (Throw (spawn_failure env r), munmap (region_bytes m) w') /\
             procs w' = replicate i Ready /\ no_teardown w').
  { subst out. unfold gaussian_parallel, gaussian_parallel_body.
    rewrite validate_augmented_ok by (done || lia).
    rewrite bind_unfold. unfold lift at 1.
    rewrite (proj2 (Nat.ltb_ge _ _)) by lia.
    cbv zeta. rewrite bind_unfold.
    fold (region_bytes m).
    destruct (mmap_cases env (region_bytes m) fresh) as [E | E].
    2: { exfalso. unfold mmap, bind, syscall, modify, ret in E. simpl in E.
         rewrite (Hbefore 0) in E by lia. simpl in E. done. }
    rewrite E. cbv beta iota delta [negb].
    unfold SharedMatrixGuard. rewrite bind_unfold.
    unfold std_copy at 1, modify at 1. rewrite bind_unfold.
    match goal with |- context [for_each ?l ?b ?w] =>
      destruct (spawn_loop_fails env r i l w) as (w' & -> & Hp & Hs & Ht) end.
    - by rewrite length_seq.
    - done.
    - simpl. intros c Hc. apply Hbefore. lia.
    - simpl. rewrite <- Hfail. f_equal.
    - exists w'. split; [done |]. split; [by rewrite Hp |].
      apply Ht. unfold no_teardown. simpl. by repeat constructor. }
  destruct Hrun as (w' & -> & Hp & Ht). simpl.
  split; [done |]. split; [done |]. split; [done |].
  unfold no_teardown, munmap. simpl.
  apply Forall_app. split; [done | by repeat constructor].
Qed.

Lemma failed_spawn_leaves_workers_witness :
  let env := {| cpu_available := 4; fails := fun k => k =? 6;
                schedule := fun _ => []; strerror := "Resource temporarily unavailable" |} in
  let out := gaussian_parallel env (fst make_predefined_matrix) 0 in
  out.1 = Throw (spawn_failure env 2) /\
  procs out.2 = replicate 1 Ready /\
  shm out.2 = None /\ no_teardown out.2.
Proof.
  intros env.
  apply (failed_spawn_leaves_workers env (fst make_predefined_matrix) 0 1 2).
  - split; [reflexivity | vm_compute; reflexivity].
  - simpl. lia.
  - reflexivity.
  - vm_compute. lia.
  - lia.
  - intros c Hc. simpl. apply Nat.eqb_neq. lia.
  - reflexivity.
Defined.

(** ** The pipe helpers *)

Lemma fd_write_loop_sends buffer bytes pipe : forall answers written,
  Forall (fun a => is_Failed a = false) answers ->
  written <= bytes -> bytes <= written + offered answers ->
  fd_write_loop answers buffer bytes written (pipe ++ take written buffer) =
    Some (true, pipe ++ take bytes buffer).
Proof.
  induction answers as [| a later IH]; intros written Hok Hle Hall; simpl.
  - simpl in Hall. rewrite (proj2 (Nat.ltb_ge _ _)) by lia.
    by replace written with bytes by lia.
  - destruct (written <? bytes) eqn:Eloop.
    2: { apply Nat.ltb_ge in Eloop. by replace written with bytes by lia. }
    apply Nat.ltb_lt in Eloop. apply Forall_cons in Hok as [Ha Hok].
    destruct a as [count | |]; simpl in Hall; [| by apply IH | done].
    rewrite <- (assoc_L (++)), take_take_drop.
    apply IH; [done | lia | lia].
Qed.

Lemma fd_write_loop_gives_up buffer bytes pipe pipe' : forall answers written,
  fd_write_loop answers buffer bytes written (pipe ++ take written buffer) =
    Some (false, pipe') ->
  Failed ∈ answers /\
  exists sent, written <= sent < bytes /\ pipe' = pipe ++ take sent buffer.
Proof.
  induction answers as [| a later IH]; intros written; simpl.
  - by destruct (written <? bytes).
  - destruct (written <? bytes) eqn:Eloop; [| done].
    apply Nat.ltb_lt in Eloop.
    destruct a as [count | |].
    + rewrite <- (assoc_L (++)), take_take_drop. intros Hrun.
      apply IH in Hrun as (Hin & sent & Hsent & ->).
      split; [by right |]. exists sent. split; [lia | done].
    + intros Hrun. apply IH in Hrun as (Hin & sent & Hsent & ->).
      split; [by right |]. by exists sent.
    + intros [= <-]. split; [by left |]. by exists written.
Qed.

(** X12.  When no call of [write] fails for a reason other than [EINTR],
    [fd_write_full] puts the whole message into the pipe, in order,
    however the kernel cuts it into pieces. *)
Theorem fd_write_full_sends answers buffer bytes pipe :
  Forall (fun a => is_Failed a = false) answers ->
  bytes <= offered answers ->
  fd_write_full answers buffer bytes pipe = Some (true, pipe ++ take bytes buffer).
Proof.
  intros Hok Hall. unfold fd_write_full.
  rewrite <- (fd_write_loop_sends buffer bytes pipe answers 0 Hok); [| lia | lia].
  by rewrite take_0, (right_id_L [] (++)).
Qed.

Lemma fd_write_full_sends_witness :
  fd_write_full [Transferred 1; Interrupted; Transferred 5]
    [Byte.x0a; Byte.x0b; Byte.x0c; Byte.x0d] 4 [Byte.x01] =
  Some (true, [Byte.x01] ++ take 4 [Byte.x0a; Byte.x0b; Byte.x0c; Byte.x0d]).
Proof.
  apply fd_write_full_sends.
  - repeat constructor.
  - simpl. lia.
Defined.

(** X13.  [fd_write_full] gives up only on a failed [write], and then a proper
    prefix of the message, possibly empty, has already gone into the pipe. *)
Theorem fd_write_full_gives_up answers buffer bytes pipe pipe' :
  fd_write_full answers buffer bytes pipe = Some (false, pipe') ->
  Failed ∈ answers /\
  exists sent, sent < bytes /\ pipe' = pipe ++ take sent buffer.
Proof.
  unfold fd_write_full. intros Hrun.
  destruct (fd_write_loop_gives_up buffer bytes pipe pipe' answers 0)
    as (Hin & sent & Hsent & ->).
  { by rewrite take_0, (right_id_L [] (++)). }
  split; [done |]. exists sent. split; [lia | done].
Qed.

Lemma fd_write_full_gives_up_witness :
  Failed ∈ [Transferred 3; Failed] /\
  exists sent, sent < 4 /\
    [Byte.x0a; Byte.x0b; Byte.x0c] =
    [] ++ take sent [Byte.x0a; Byte.x0b; Byte.x0c; Byte.x0d].
Proof.
  apply (fd_write_full_gives_up [Transferred 3; Failed]
           [Byte.x0a; Byte.x0b; Byte.x0c; Byte.x0d] 4 []).
  reflexivity.
Defined.

Lemma store_next (buffer msg : list Byte.byte) (read_total ret bytes : nat) :
  read_total + ret <= bytes -> bytes <= length buffer -> ret <= length msg ->
  let buffer' := store buffer read_total (take ret msg) in
  take (read_total + ret) buffer' = take read_total buffer ++ take ret msg /\
  drop bytes buffer' = drop bytes buffer /\
  length buffer' = length buffer.
Proof.
  intros Hle Hbuf Hmsg buffer'. subst buffer'. unfold store.
  assert (Hchunk : length (take ret msg) = ret) by (rewrite length_take; lia).
  assert (Hhead : length (take read_total buffer) = read_total)
    by (rewrite length_take; lia).
  rewrite Hchunk. split; [| split].
  - rewrite (assoc_L (++)). rewrite take_app_length'; [done |].
    rewrite length_app. lia.
  - rewrite (assoc_L (++)). rewrite drop_app_ge by (rewrite length_app; lia).
    rewrite length_app, Hhead, Hchunk, drop_drop. f_equal. lia.
  - rewrite !length_app, Hhead, Hchunk, length_drop. lia.
Qed.

Lemma fd_read_loop_receives bytes rest : forall answers msg buffer read_total,
  Forall (fun a => makes_progress a = true) answers ->
  read_total + length msg = bytes -> length msg <= offered answers ->
  bytes <= length buffer ->
  fd_read_loop answers (msg ++ rest) buffer bytes read_total =
    Some (true, take read_total buffer ++ msg ++ drop bytes buffer, rest).
Proof.
  induction answers as [| a later IH]; intros msg buffer read_total Hok Hlen Hall Hbuf.
  - simpl in *. rewrite (proj2 (Nat.ltb_ge _ _)) by lia.
    destruct msg; [| simpl in Hall; lia]. simpl in *.
    replace read_total with bytes by lia. by rewrite take_drop.
  - simpl. destruct (read_total <? bytes) eqn:Eloop.
    2: { apply Nat.ltb_ge in Eloop. destruct msg; [| simpl in Hlen; lia].
         simpl in *. replace read_total with bytes by lia. by rewrite take_drop. }
    apply Nat.ltb_lt in Eloop. apply Forall_cons in Hok as [Ha Hok].
    destruct a as [count | |]; simpl in Ha, Hall; [| by apply IH | done].
    apply Nat.ltb_lt in Ha.
    rewrite length_app.
    replace (Nat.min count (Nat.min (bytes - read_total) (length msg + length rest)))
      with (Nat.min count (length msg)) by lia.
    set (ret := Nat.min count (length msg)).
    assert (Hret : 0 < ret <= length msg) by lia.
    rewrite (proj2 (Nat.eqb_neq _ _)) by lia.
    rewrite take_app_le, drop_app_le by lia.
    destruct (store_next buffer msg read_total ret bytes) as (Htake & Hdrop & Hlength);
      [lia | lia | lia |].
    rewrite IH; [| done | rewrite length_drop; lia | rewrite length_drop; lia | lia].
    rewrite Htake, Hdrop. rewrite <- (take_drop ret msg) at 3.
    by rewrite <- !(assoc_L (++)).
Qed.

(** X14.  When the pipe holds the message and no call of [read] fails for a
    reason other than [EINTR], [fd_read_full] fills the buffer with exactly
    the message, however the kernel cuts it into pieces, and leaves what
    follows it in the pipe. *)
Theorem fd_read_full_receives answers msg rest buffer :
  Forall (fun a => makes_progress a = true) answers ->
  length msg <= offered answers -> length msg <= length buffer ->
  fd_read_full answers (msg ++ rest) buffer (length msg) =
    Some (true, msg ++ drop (length msg) buffer, rest).
Proof.
  intros Hok Hall Hbuf. unfold fd_read_full.
  by rewrite (fd_read_loop_receives (length msg) rest answers msg buffer 0).
Qed.

Lemma fd_read_full_receives_witness :
  fd_read_full [Transferred 2; Interrupted; Transferred 1; Transferred 7]
    ([Byte.x0a; Byte.x0b; Byte.x0c; Byte.x0d] ++ [Byte.x0e])
    [Byte.x00; Byte.x00; Byte.x00; Byte.x00]
    (length [Byte.x0a; Byte.x0b; Byte.x0c; Byte.x0d]) =
  Some (true,
        [Byte.x0a; Byte.x0b; Byte.x0c; Byte.x0d] ++
        drop (length [Byte.x0a; Byte.x0b; Byte.x0c; Byte.x0d])
             [Byte.x00; Byte.x00; Byte.x00; Byte.x00],
        [Byte.x0e]).
Proof.
  apply fd_read_full_receives.
  - repeat constructor.
  - simpl. lia.
  - simpl. lia.
Defined.

Lemma fd_read_loop_truncated bytes : forall answers pipe buffer read_total out,
  read_total + length pipe < bytes ->
  fd_read_loop answers pipe buffer bytes read_total = Some out ->
  out.1.1 = false.
Proof.
  induction answers as [| a later IH]; intros pipe buffer read_total out Hshort;
    simpl; rewrite (proj2 (Nat.ltb_lt _ _)) by lia; [done |].
  destruct a as [count | |].
  - destruct (_ =? 0) eqn:Eret; [by intros [= <-] |].
    apply IH. rewrite length_drop. lia.
  - by apply IH.
  - by intros [= <-].
Qed.

(** X15.  A message cut short by the end of the pipe is never reported as
    read. *)
Theorem fd_read_full_truncated answers pipe buffer bytes out :
  length pipe < bytes ->
  fd_read_full answers pipe buffer bytes = Some out -> out.1.1 = false.
Proof. intros Hshort. by apply fd_read_loop_truncated. Qed.

Lemma fd_read_full_truncated_witness :
  let out := (false, [Byte.x0a; Byte.x0b; Byte.x00; Byte.x00], @nil Byte.byte) in
  fd_read_full [Transferred 4; Transferred 4] [Byte.x0a; Byte.x0b]
    [Byte.x00; Byte.x00; Byte.x00; Byte.x00] 4 = Some out /\
  out.1.1 = false.
Proof.
  intros out. split; [reflexivity |].
  apply (fd_read_full_truncated [Transferred 4; Transferred 4]
           [Byte.x0a; Byte.x0b] [Byte.x00; Byte.x00; Byte.x00; Byte.x00] 4 out).
  - simpl. lia.
  - reflexivity.
Defined.

Lemma fd_write_loop_done answers buffer bytes written pipe :
  (written <? bytes) = false ->
  fd_write_loop answers buffer bytes written pipe = Some (true, pipe).
Proof. intros E. destruct answers; simpl; by rewrite E. Qed.

Lemma fd_read_loop_done answers pipe buffer bytes read_total :
  (read_total <? bytes) = false ->
  fd_read_loop answers pipe buffer bytes read_total = Some (true, buffer, pipe).
Proof. intros E. destruct answers; simpl; by rewrite E. Qed.

(** X16.  A call interrupted by a signal is repeated and leaves no trace in the
    outcome of either helper. *)
Theorem interrupted_calls_are_retried answers buffer bytes pipe :
  let retried :=
    List.filter (fun a => match a with Interrupted => false | _ => true end)
                answers in
  fd_write_full retried buffer bytes pipe = fd_write_full answers buffer bytes pipe /\
  fd_read_full retried pipe buffer bytes = fd_read_full answers pipe buffer bytes.
Proof.
  intros retried. subst retried. unfold fd_write_full, fd_read_full. split.
  - generalize 0 as written. revert pipe.
    induction answers as [| a later IH]; intros pipe written; [done |].
    destruct (written <? bytes) eqn:E; [| by rewrite !fd_write_loop_done].
    destruct a as [count | |]; simpl; rewrite ?E; [apply IH | | done].
    rewrite <- IH. done.
  - generalize 0 as read_total. revert pipe buffer.
    induction answers as [| a later IH]; intros pipe buffer read_total; [done |].
    destruct (read_total <? bytes) eqn:E; [| by rewrite !fd_read_loop_done].
    destruct a as [count | |]; simpl; rewrite ?E; [| | done].
    + destruct (_ =? 0); [done | apply IH].
    + rewrite <- IH. done.
Qed.

(** X17.  What one end writes with [fd_write_full] the other end reads with
    [fd_read_full], whatever pieces the two sides move it in. *)
Theorem pipe_round_trip writes reads (msg buffer : list Byte.byte) :
  Forall (fun a => is_Failed a = false) writes -> length msg <= offered writes ->
  Forall (fun a => makes_progress a = true) reads -> length msg <= offered reads ->
  length buffer = length msg ->
  exists pipe,
    fd_write_full writes msg (length msg) [] = Some (true, pipe) /\
    fd_read_full reads pipe buffer (length msg) = Some (true, msg, []).
Proof.
  intros Hw Hwall Hr Hrall Hbuf. exists msg. split.
  - unfold fd_write_full.
    pose proof (fd_write_loop_sends msg (length msg) [] writes 0 Hw) as H.
    rewrite take_0 in H. simpl in H. rewrite H by lia. by rewrite firstn_all.
  - unfold fd_read_full.
    pose proof (fd_read_loop_receives (length msg) [] reads msg buffer 0 Hr) as H.
    rewrite (right_id_L [] (++)) in H. rewrite H by lia.
    rewrite take_0, drop_ge by lia. simpl. by rewrite (right_id_L [] (++)).
Qed.

Lemma pipe_round_trip_witness :
  exists pipe,
    fd_write_full [Transferred 1; Transferred 9] [Byte.x0a; Byte.x0b; Byte.x0c]
      (length [Byte.x0a; Byte.x0b; Byte.x0c]) [] = Some (true, pipe) /\
    fd_read_full [Transferred 2; Interrupted; Transferred 2] pipe
      [Byte.x00; Byte.x00; Byte.x00] (length [Byte.x0a; Byte.x0b; Byte.x0c]) =
    Some (true, [Byte.x0a; Byte.x0b; Byte.x0c], []).
Proof.
  apply pipe_round_trip.
  - repeat constructor.
  - simpl. lia.
  - repeat constructor.
  - simpl. lia.
  - reflexivity.
Defined.

(** ** The worker's loop *)

Lemma worker_loop_work width task later d :
  command task <> Exit ->
  worker_loop width ((task, true) :: later) d =
    let rest := worker_loop width later (worker_work width task d) in
    {| it_shared := it_shared rest;
       it_acks := ack_written :: it_acks rest;
       it_state := it_state rest |}.
Proof.
  intros Hcmd. simpl. unfold worker_iteration.
  by rewrite (proj2 (Nat.eqb_neq _ _) Hcmd).
Qed.

(** X18.  A worker serves the tasks in the order they arrive, one
    acknowledgement each, until the first [Exit]; it then ends with status
    0, whether or not that last acknowledgement could be written, and never
    looks at what was queued behind.  Every command other than [Exit],
    [Work] or not, is served as work. *)
Theorem worker_loop_until_exit width work stop ok later d :
  Forall (fun t => command t <> Exit) work -> command stop = Exit ->
  worker_loop width (map (fun t => (t, true)) work ++ (stop, ok) :: later) d =
    {| it_shared := fold_left (fun d t => worker_work width t d) work d;
       it_acks := replicate (length work) ack_written ++
                  (if ok then [ack_written] else []);
       it_state := Terminated 0 |}.
Proof.
  intros Hwork Hstop. revert d.
  induction Hwork as [| task work Htask Hwork IH]; intros d.
  - simpl. unfold worker_iteration. rewrite Hstop. simpl. by destruct ok.
  - change (map (fun t => (t, true)) (task :: work) ++ (stop, ok) :: later)
      with ((task, true) :: (map (fun t => (t, true)) work ++ (stop, ok) :: later)).
    rewrite worker_loop_work by done.
    cbv zeta. by rewrite IH.
Qed.

Lemma worker_loop_until_exit_witness :
  let work :=
    [ {| command := Work; column := 0; start_row := 1; end_row := 3 |};
      {| command := 7; column := 1; start_row := 2; end_row := 3 |} ] in
  let stop := {| command := Exit; column := 0; start_row := 0; end_row := 0 |} in
  let later :=
    [ ({| command := Work; column := 0; start_row := 1; end_row := 2 |}, true) ] in
  let d := data (fst make_predefined_matrix) in
  worker_loop 4 (map (fun t => (t, true)) work ++ (stop, false) :: later) d =
  {| it_shared := fold_left (fun d t => worker_work 4 t d) work d;
     it_acks := replicate (length work) ack_written ++ [];
     it_state := Terminated 0 |}.
Proof.
  intros work stop later d.
  apply (worker_loop_until_exit 4 work stop false later d).
  - repeat (apply Forall_cons; split; [by vm_compute |]). apply Forall_nil_2.
  - reflexivity.
Defined.


(** ** The server's comparison *)

Lemma fmax_below (bound a b : double) :
  (bound <? a)%float = false -> (bound <? b)%float = false ->
  (bound <? fmax a b)%float = false.
Proof. intros Ha Hb. unfold fmax. by destruct (a <? b)%float. Qed.

Lemma compare_loop_flag : forall pairs max_delta,
  (kTolerance <? max_delta)%float = false ->
  (compare_loop pairs max_delta).1 =
    forallb (fun '(p, s) => negb (kTolerance <? fabs (p - s))%float) pairs /\
  ((compare_loop pairs max_delta).1 = true ->
   (kTolerance <? (compare_loop pairs max_delta).2)%float = false).
Proof.
  induction pairs as [| [p s] later IH]; intros max_delta Hmax; simpl; [done |].
  destruct (kTolerance <? fabs (p - s))%float eqn:Edelta; simpl; [done |].
  apply IH. by apply fmax_below.
Qed.

Lemma compare_solutions_flag_aux (parallel_solution sequential_solution : list double) :
  (compare_solutions parallel_solution sequential_solution).1 =
    solutions_match parallel_solution sequential_solution /\
  ((compare_solutions parallel_solution sequential_solution).1 = true ->
   (kTolerance <? (compare_solutions parallel_solution sequential_solution).2)%float
     = false).
Proof.
  unfold compare_solutions, solutions_match.
  destruct (length parallel_solution =? length sequential_solution); simpl;
    [| done].
  by apply compare_loop_flag.
Qed.

(** X20.  The loop with its [break] computes the flag [solutions_match]: sizes
    equal and no element with a difference above the tolerance.  When it
    reports agreement, the [max_delta] it prints is not above the
    tolerance either. *)
Theorem compare_solutions_flag (parallel_solution sequential_solution : list double) :
  let out := compare_solutions parallel_solution sequential_solution in
  out.1 = solutions_match parallel_solution sequential_solution /\
  (out.1 = true -> (kTolerance <? out.2)%float = false).
Proof.
  intros out. subst out. apply compare_solutions_flag_aux.
Qed.

Lemma nan_difference (x : double) :
  (kTolerance <? fabs (nan - x))%float = false /\
  (kTolerance <? fabs (x - nan))%float = false.
Proof.
  unfold fabs. rewrite !ltb_spec, !abs_spec, !sub_spec.
  change (Prim2SF nan) with S754_nan.
  split; destruct (Prim2SF x) as [s | s | | s m e]; try destruct s; reflexivity.
Qed.

Lemma forallb_zip_middle {A} (f : A * A -> bool) p1 p2 s1 s2 p s :
  length p1 = length s1 -> f (p, s) = true ->
  forallb f (zip (p1 ++ p :: p2) (s1 ++ s :: s2)) =
  forallb f (zip (p1 ++ p2) (s1 ++ s2)).
Proof.
  intros Hlen Hf. revert s1 Hlen.
  induction p1 as [| a p1 IH]; intros [| b s1] Hlen; try done; simpl.
  - by rewrite Hf.
  - rewrite IH; [done | by injection Hlen].
Qed.

(** X21.  An element that is NaN on either side is never counted as a
    disagreement: the comparison gives the verdict it gives without that
    element. *)
Theorem nan_passes_comparison p1 p2 s1 s2 (p s : double) :
  length p1 = length s1 -> p = nan \/ s = nan ->
  (compare_solutions (p1 ++ p :: p2) (s1 ++ s :: s2)).1 =
  (compare_solutions (p1 ++ p2) (s1 ++ s2)).1.
Proof.
  intros Hlen Hnan.
  rewrite (proj1 (compare_solutions_flag_aux _ _)),
          (proj1 (compare_solutions_flag_aux _ _)).
  unfold solutions_match. rewrite !length_app. simpl.
  rewrite !Nat.add_succ_r. simpl. f_equal.
  apply (forallb_zip_middle (fun '(p, s) => negb (kTolerance <? fabs (p - s))%float));
    [done |].
  destruct Hnan as [-> | ->].
  - by rewrite (proj1 (nan_difference s)).
  - by rewrite (proj2 (nan_difference p)).
Qed.

Lemma nan_passes_comparison_witness :
  (compare_solutions ([1] ++ nan :: [3]) ([1] ++ 2 :: [3]))%float.1 =
  (compare_solutions ([1] ++ [3]) ([1] ++ [3]))%float.1.
Proof. apply nan_passes_comparison; [reflexivity | by left]. Defined.

(** ** Client and server *)

Lemma to_u_int_fits (n : nat) :
  to_u_int n = n <-> (Z.of_nat n < 2 ^ 32)%Z.
Proof.
  unfold to_u_int. split.
  - intros Heq.
    pose proof (Z.mod_pos_bound (Z.of_nat n) (2 ^ 32) ltac:(lia)) as Hbound.
    lia.
  - intros Hfit. rewrite Z.mod_small by lia. apply Nat2Z.id.
Qed.

Lemma take_all_iff {A} (l : list A) (k : nat) :
  take k l = l <-> length l <= k.
Proof.
  split.
  - intros Heq. apply (f_equal length) in Heq. rewrite length_take in Heq. lia.
  - apply take_ge.
Qed.

Lemma rpc_matrix_fits (m : CppMatrix) :
  (Z.of_nat (rows m) < 2 ^ 32)%Z -> (Z.of_nat (cols m) < 2 ^ 32)%Z ->
  (Z.of_nat (length (data m)) < 2 ^ 32)%Z ->
  from_rpc_matrix (to_rpc_matrix m) = m.
Proof.
  intros Hr Hc Hd. destruct m as [r c d].
  unfold from_rpc_matrix, to_rpc_matrix. simpl in *.
  rewrite !(proj2 (to_u_int_fits _)) by done. by rewrite firstn_all.
Qed.

(** X22.  The matrix the service routine rebuilds from the request is the
    client's matrix exactly when the two dimensions and the number of
    entries fit into 32 bits; otherwise the [u_int] fields have lost the
    high bits. *)
Theorem rpc_matrix_round_trip (m : CppMatrix) :
  from_rpc_matrix (to_rpc_matrix m) = m <->
  (Z.of_nat (rows m) < 2 ^ 32 /\ Z.of_nat (cols m) < 2 ^ 32 /\
   Z.of_nat (length (data m)) < 2 ^ 32)%Z.
Proof.
  split; [| intros (Hr & Hc & Hd); by apply rpc_matrix_fits].
  destruct m as [r c d]. unfold from_rpc_matrix, to_rpc_matrix. simpl.
  rewrite <- !to_u_int_fits.
  intros [= Hr Hc Hd]. split; [done |]. split; [done |].
  apply take_all_iff in Hd.
  apply to_u_int_fits.
  pose proof (Z.mod_pos_bound (Z.of_nat (length d)) (2 ^ 32) ltac:(lia)).
  unfold to_u_int in Hd.
  destruct (Z_lt_dec (Z.of_nat (length d)) (2 ^ 32)) as [| Hbig]; [done |].
  exfalso. lia.
Qed.





(** X26.  A well-formed system that fits the 32-bit fields goes through the
    request, the parallel engine and the reply unchanged: when no system
    call fails, the vector the client rebuilds from the reply is the
    solution of the sequential engine. *)
Theorem service_returns_solution env (m : CppMatrix) x :
  fault_free env -> well_formed m -> 1 <= rows m -> cols m = rows m + 1 ->
  (Z.of_nat (length (data m)) < 2 ^ 32)%Z ->
  gaussian_sequential m = Return x ->
  exists reply w,
    solve_gauss_1_svc env (to_rpc_matrix m) = (Return reply, w) /\
    take (Rpc.values_len reply) (Rpc.values_val reply) = x.
Proof.
  intros Hff Hwf Hrows Hcols Hdata Hseq.
  assert (Hfit : (Z.of_nat (rows m) < 2 ^ 32 /\ Z.of_nat (cols m) < 2 ^ 32)%Z).
  { destruct Hwf as [Hlen _]. rewrite Hlen in Hdata. nia. }
  unfold solve_gauss_1_svc.
  rewrite rpc_matrix_fits by tauto.
  pose proof (gaussian_parallel_result env m 0 Hff Hwf Hrows Hcols) as Hpar.
  destruct (gaussian_parallel env m 0) as [outcome w]. simpl in Hpar.
  rewrite Hpar, Hseq. simpl. eexists _, w. split; [done |]. simpl.
  rewrite (proj2 (to_u_int_fits (length x))).
  - by rewrite firstn_all.
  - rewrite (gaussian_sequential_length m x Hseq). lia.
Qed.

Lemma service_returns_solution_witness :
  exists reply w,
    solve_gauss_1_svc calm (to_rpc_matrix (fst make_predefined_matrix)) =
      (Return reply, w) /\
    take (Rpc.values_len reply) (Rpc.values_val reply) = [2; 3; -1]%float.
Proof.
  apply (service_returns_solution calm (fst make_predefined_matrix)).
  - by intros k.
  - split; [reflexivity | vm_compute; reflexivity].
  - simpl. lia.
  - reflexivity.
  - simpl. lia.
  - vm_compute. reflexivity.
Defined.

(** ** The shape test and the budget at their edges *)

(** X27.  Among the shapes [std::size_t] can express, the shape test accepts
    [cols = rows + 1] with at least one row and, because [rows + 1] wraps
    around, also [SIZE_MAX] rows with no column. *)
Theorem validate_augmented_accepts (m : CppMatrix) :
  (Z.of_nat (rows m) < 2 ^ 64)%Z -> (Z.of_nat (cols m) < 2 ^ 64)%Z ->
  validate_augmented m = Return tt <->
  1 <= rows m /\
  (cols m = rows m + 1 \/ (Z.of_nat (rows m) = 2 ^ 64 - 1)%Z /\ cols m = 0).
Proof.
  intros Hr Hc. unfold validate_augmented.
  destruct (rows m =? 0) eqn:Er.
  { apply Nat.eqb_eq in Er. split; [done | lia]. }
  apply Nat.eqb_neq in Er.
  assert (Hsucc : to_size_t (Z.of_nat (rows m) + 1) =
                  if Z.eq_dec (Z.of_nat (rows m)) (2 ^ 64 - 1)%Z then 0
                  else rows m + 1).
  { unfold to_size_t. destruct (Z.eq_dec _ _) as [Emax | Emax].
    - replace (Z.of_nat (rows m) + 1)%Z with (2 ^ 64)%Z by lia.
      by rewrite Z.mod_same.
    - rewrite Z.mod_small by lia. lia. }
  rewrite Hsucc.
  destruct (cols m =? _) eqn:Ec; simpl.
  - apply Nat.eqb_eq in Ec. split; [| done]. intros _. split; [lia |].
    destruct (Z.eq_dec _ _); [right | left]; done.
  - apply Nat.eqb_neq in Ec. split; [done |]. intros [_ Hcase]. exfalso.
    destruct (Z.eq_dec _ _); lia.
Qed.

Lemma validate_augmented_accepts_witness :
  validate_augmented (fst make_predefined_matrix) = Return tt <->
  1 <= 3 /\ (4 = 3 + 1 \/ (Z.of_nat 3 = 2 ^ 64 - 1)%Z /\ 4 = 0).
Proof.
  apply (validate_augmented_accepts (fst make_predefined_matrix)); simpl; lia.
Defined.

(** X28.  The budget is at least one worker and, from two rows on, at most one
    worker per row below the first; with no explicit request and a
    processor count that [sysconf] could not give, it is one. *)
Theorem process_budget_bounds env max_processes n :
  1 <= process_budget env max_processes n <= Nat.max 1 (n - 1) /\
  (max_processes = 0 -> (cpu_available env <= 0)%Z ->
   process_budget env max_processes n = 1).
Proof.
  unfold process_budget. split.
  - cbv zeta. match goal with |- context [Nat.min ?b _] => generalize b end.
    intros b. lia.
  - intros -> Hcpu. simpl. rewrite (proj2 (Z.ltb_ge _ _)) by lia.
    change (Z.to_nat 1) with 1. lia.
Qed.
